(** * Dependency-graph tool: graph construction and traversal

    A shallow embedding of [src/main.py]: the local-graph loader, the
    remote graph builder with its registry client, the filter-pruned
    traversal, the reverse graph, breadth-first reachability, the
    reverse-dependency query of [main] and the DOT rendering, together
    with the properties that the design document states about them.

    Conventions of the embedding.
    - [Graph = Dict[str, Set[str]]] is a finite map from strings to finite
      sets of strings.  The program creates all its graphs as
      [defaultdict(set)]: [g[u].add(v)] is [graph_add], [g.get(u, ())] is
      [graph_get], [g.setdefault(u, set())] is [graph_setdefault].
    - A [for] loop over a set or over a dict is a left fold over an
      enumeration of the container, [elements] or [map_to_list].  The
      order of that enumeration is not the one of the interpreter; the
      loop bodies are functions on arbitrary lists, their lemmas are
      proved for arbitrary lists, and the results that are proved (sets
      of nodes, sets of edges, keys) do not depend on the order.
    - The recursive [dfs] functions and the [while] loop of [reachable]
      take a fuel argument, the depth of the call stack or the number of
      iterations.  For the two traversals of a finite graph a sufficient
      fuel is supplied and proved sufficient, so that they are total
      functions; the remote builder keeps the argument, because a
      registry may offer ever new names.  The recursion limit of the
      interpreter is not modelled.
    - An exception is a value of [result]; the two classes that the
      program tells apart, [SystemExit] and [Exception], are kept apart.
    - Strings are byte strings; [str.lower], [str.strip] and [str.split]
      are modelled on the ASCII range.  Text outside that range, on
      which the interpreter knows further letters and further white
      space, is outside the model.
    - The operating system is not modelled: [load_test_graph] starts
      from the lines read from the file, the registry client from the
      reply to a request.
    - Output to the console is not modelled. *)

From Stdlib Require Import ZArith Ascii String.
From stdpp Require Import base option list strings gmap sets fin_maps fin_sets relations.

Local Open Scope string_scope.

(** ** Python strings *)

Module Py.

(** [c.lower()] for one character: only [A]-[Z] change. *)
Definition lower_ascii (c : ascii) : ascii :=
  let n := nat_of_ascii c in
  if (65 <=? n)%nat && (n <=? 90)%nat then ascii_of_nat (n + 32) else c.

(** [s.lower()] *)
Fixpoint lower (s : string) : string :=
  match s with
  | EmptyString => EmptyString
  | String c t => String (lower_ascii c) (lower t)
  end.

(** [s.startswith(p)] *)
Fixpoint startswith (p s : string) : bool :=
  match p, s with
  | EmptyString, _ => true
  | String _ _, EmptyString => false
  | String a p', String b s' => if Ascii.eqb a b then startswith p' s' else false
  end.

(** [sub in s] *)
Fixpoint contains (sub s : string) : bool :=
  startswith sub s ||
  match s with
  | EmptyString => false
  | String _ t => contains sub t
  end.

(** Truth value of a string: [bool(s)]. *)
Definition truthy (s : string) : bool :=
  match s with EmptyString => false | String _ _ => true end.

(** [sep.join(lines)] *)
Fixpoint join (sep : string) (l : list string) : string :=
  match l with
  | [] => EmptyString
  | [x] => x
  | x :: rest => x ++ sep ++ join sep rest
  end.

(** [c.isspace()] on the ASCII range: tab, line feed, vertical tab, form
    feed, carriage return, the four separators 28-31, and space. *)
Definition isspace (c : ascii) : bool :=
  let n := nat_of_ascii c in
  ((9 <=? n)%nat && (n <=? 13)%nat) || ((28 <=? n)%nat && (n <=? 32)%nat).

(** [s.lstrip()], [s.rstrip()], [s.strip()] *)
Fixpoint lstrip (s : string) : string :=
  match s with
  | EmptyString => EmptyString
  | String c t => if isspace c then lstrip t else s
  end.

Fixpoint rstrip (s : string) : string :=
  match s with
  | EmptyString => EmptyString
  | String c t =>
      match rstrip t with
      | EmptyString => if isspace c then EmptyString else String c EmptyString
      | t' => String c t'
      end
  end.

Definition strip (s : string) : string := rstrip (lstrip s).

(** [s.split()]: the maximal runs of non-space characters.  [cur] is the
    run being read, if any. *)
Fixpoint split_ws (cur : option string) (s : string) : list string :=
  match s with
  | EmptyString => match cur with Some w => [w] | None => [] end
  | String c t =>
      if isspace c then
        match cur with
        | Some w => w :: split_ws None t
        | None => split_ws None t
        end
      else
        split_ws (Some (match cur with
                        | Some w => w ++ String c EmptyString
                        | None => String c EmptyString
                        end)) t
  end.

Definition split (s : string) : list string := split_ws None s.

(** [s.split(sep, 1)] for a one-character [sep]: [None] when [sep] does
    not occur in [s], else the text before and after its first occurrence. *)
Fixpoint split_once (sep : ascii) (s : string) : option (string * string) :=
  match s with
  | EmptyString => None
  | String c t =>
      if Ascii.eqb c sep then Some (EmptyString, t)
      else match split_once sep t with
           | Some (l, r) => Some (String c l, r)
           | None => None
           end
  end.

End Py.

(** ** The edge store *)

Abbreviation Graph := (gmap string (gset string)).

(** [g.get(u, ())] *)
Definition graph_get (g : Graph) (u : string) : gset string :=
  default ∅ (g !! u).

(** [g[u].add(v)] on a [defaultdict(set)]: a missing key is created. *)
Definition graph_add (g : Graph) (u v : string) : Graph :=
  <[u := graph_get g u ∪ {[v]}]> g.

(** [g.setdefault(u, set())] *)
Definition graph_setdefault (g : Graph) (u : string) : Graph :=
  match g !! u with
  | Some _ => g
  | None => <[u := ∅]> g
  end.

(** [u -> v] is an edge of [g]. *)
Definition edge (g : Graph) (u v : string) : Prop := v ∈ graph_get g u.

(** Every node that occurs in [g], as a key or as an edge target. *)
Definition graph_nodes (g : Graph) : gset string :=
  dom g ∪ ⋃ (map_to_list g).*2.

(** ** The filter policy *)

(** [flt_low and flt_low in node.lower()], with [flt_low] already lowered. *)
Definition flt_match (flt_low node : string) : bool :=
  Py.truthy flt_low && Py.contains flt_low (Py.lower node).

(** [flt_low = (flt or "").lower()] *)
Definition flt_lower (flt : string) : string := Py.lower flt.

(** ** Exceptions *)

(** The exceptions that the program meets.  [fail] raises [SystemExit(2)],
    which derives from [BaseException] only; every other error of the
    fetch path ([AttributeError], [TimeoutError], ...) derives from
    [Exception]. *)
Inductive exn :=
| SystemExit (code : Z)
| Exception.

Inductive result (A : Type) :=
| Ok (a : A)
| Raise (e : exn).
Arguments Ok {A} a.
Arguments Raise {A} e.

(** Sequencing: an exception raised by the first statement propagates. *)
#[global] Instance result_bind : MBind result := λ A B k r,
  match r with
  | Ok a => k a
  | Raise e => Raise e
  end.

(** [fail(msg)]: the message goes to the standard error stream, which is
    not part of the model. *)
Definition fail {A : Type} (msg : string) : result A := Raise (SystemExit 2).

(** ** [load_test_graph] *)

(** [UPPER_RE.fullmatch(s)]: one or more letters [A]-[Z] and nothing else. *)
Fixpoint all_upper (s : string) : bool :=
  match s with
  | EmptyString => true
  | String c t =>
      let n := nat_of_ascii c in
      (65 <=? n)%nat && (n <=? 90)%nat && all_upper t
  end.

Definition upper_fullmatch (s : string) : bool :=
  Py.truthy s && all_upper s.

(** The loop [for d in deps:] of one line; [left_] and [right_] stand for
    the locals [left] and [right]. *)
Fixpoint load_deps (left_ : string) (deps : list string) (g : Graph)
  : result Graph :=
  match deps with
  | [] => Ok g
  | d :: deps' =>
      if negb (upper_fullmatch d)
      then fail ("invalid dep name in test graph (must be A..Z+): " ++ d)
      else load_deps left_ deps' (graph_add g left_ d)
  end.

(** The body of [for line in f:]. *)
Definition load_line (g : Graph) (line : string) : result Graph :=
  let s := Py.strip line in
  if negb (Py.truthy s) || Py.startswith "#" s then Ok g
  else
    match Py.split_once ":" s with
    | None => fail ("bad test graph line (expected 'X: Y Z'): " ++ s)
    | Some (left_, right_) =>
        let left_ := Py.strip left_ in
        if negb (upper_fullmatch left_)
        then fail ("invalid node name in test graph (must be A..Z+): " ++ left_)
        else
          g ← load_deps left_ (Py.split (Py.strip right_)) g;
          Ok (graph_setdefault g left_)
    end.

(** [load_test_graph(path)], given the lines that the iteration over the
    file at [path] yields.  Opening and decoding the file are not part of
    the model: a file that cannot be opened raises [OSError] before the
    first line, and bytes that are not UTF-8 raise [UnicodeDecodeError]
    before or between the lines; neither goes through [fail]. *)
Fixpoint load_lines (lines : list string) (g : Graph) : result Graph :=
  match lines with
  | [] => Ok g
  | line :: rest => g' ← load_line g line; load_lines rest g'
  end.

Definition load_test_graph (lines : list string) : result Graph :=
  load_lines lines ∅.

(** ** The registry client and [build_graph_cratesio] *)

Module Registry.

(** One element of the ["dependencies"] array, reduced to the fields
    that [crates_direct_deps] reads.  [optional] is the truth value of
    [d.get("optional")]; an absent [kind] or [req] is [None].

    [crate_id] is a string, as the registry serves it.  The program does
    not check this.  For an entry that is kept and whose [crate_id] is
    absent or is not a string, the loop of the builder, which stands
    after the [try], raises [AttributeError] at [dep.lower()] or
    [TypeError] at [graph[node].add(dep)], or else takes the value for a
    node.  Such entries are outside the model: nothing is stated about
    the exceptions of [Exception] that leave the builder. *)
Record dep_entry := DepEntry {
  optional : bool;
  kind : option string;
  crate_id : string;
  req : option string
}.

(** A decoded JSON document, reduced to what the program reads:
    [meta.get("crate", {}).get("newest_version")], the [num] fields of
    [meta.get("versions")], and [j.get("dependencies", [])].  A
    document in which one of these reads fails (a value without [get],
    [versions] that cannot be indexed, dependencies that cannot be
    iterated) makes the client raise an [Exception] inside the [try] of
    the builder, which is the effect of [OtherError].  The [crate_id] of
    an entry is not read by the client but by the builder, after the
    [try]: see [dep_entry]. *)
Record document := Document {
  newest_version : option string;
  versions : list (option string);
  dependencies : list dep_entry
}.

(** What the body of the [try] block of [http_get_json] does for a URL:
    it raises [HTTPError], [URLError], [JSONDecodeError] or some other
    [Exception], or it returns the decoded document. *)
Inductive reply :=
| HTTPError
| URLError
| JSONDecodeError
| OtherError
| Json (doc : document).

Definition CRATES_API : string := "https://crates.io/api/v1/crates".

(** [bool(x)] and [f"{x}"] for [x : Optional[str]]. *)
Definition truthy_opt (x : option string) : bool :=
  match x with Some s => Py.truthy s | None => false end.

Definition format_opt (x : option string) : string :=
  match x with Some s => s | None => "None" end.

(** [x or d] *)
Definition or_default (x : option string) (d : string) : string :=
  match x with
  | Some s => if Py.truthy s then s else d
  | None => d
  end.

Section Client.
(** The registry as seen through [urlopen]. *)
Variable urlopen : string → reply.

Definition http_get_json (url : string) : result document :=
  match urlopen url with
  | Json doc => Ok doc
  | HTTPError | URLError => fail ("cannot GET " ++ url)
  | JSONDecodeError => fail ("invalid JSON from " ++ url)
  | OtherError => Raise Exception
  end.

Definition crates_latest_version (crate : string) : result (option string) :=
  meta ← http_get_json (CRATES_API ++ "/" ++ crate);
  let newest := newest_version meta in
  if negb (truthy_opt newest) then
    match versions meta with
    | [] => fail ("no versions for crate '" ++ crate ++ "'")
    | v :: _ => Ok v
    end
  else Ok newest.

(** One iteration of [for d in j.get("dependencies", [])]. *)
Definition collect_dep (deps : list (string * string * string))
           (d : dep_entry) : list (string * string * string) :=
  if optional d then deps
  else
    let kind := or_default (kind d) "normal" in
    if negb (String.eqb kind "normal") then deps
    else (deps ++ [(crate_id d, or_default (req d) EmptyString, kind)])%list.

Definition crates_direct_deps (crate : string) (version : option string)
  : result (list (string * string * string)) :=
  j ← http_get_json (CRATES_API ++ "/" ++ crate ++ "/"
                       ++ format_opt version ++ "/dependencies");
  Ok (foldl collect_dep [] (dependencies j)).

(** The locals [graph] and [visited] of [build_graph_cratesio]. *)
Record state := State { graph : Graph; visited : gset string }.

Definition init : state := State ∅ ∅.

Variable flt_low : string.

(** The loop [for dep, _req, _kind in deps:] of the inner [dfs], with
    the recursive call passed as [rec]. *)
Fixpoint each_dep (rec : string → state → option (result state))
         (node : string) (deps : list (string * string * string))
         (st : state) : option (result state) :=
  match deps with
  | [] => Some (Ok st)
  | (dep, _req, _kind) :: deps' =>
      if flt_match flt_low dep then each_dep rec node deps' st
      else
        let st1 := State (graph_add (graph st) node dep) (visited st) in
        if bool_decide (dep ∈ visited st1) then each_dep rec node deps' st1
        else
          match rec dep st1 with
          | Some (Ok st2) => each_dep rec node deps' st2
          | Some (Raise e) => Some (Raise e)
          | None => None
          end
  end.

(** The inner [dfs(node)].  The [try] covers the two fetches only, and
    [except Exception] lets a [SystemExit] through.  [None]: the fuel
    (call-stack depth) is exhausted. *)
Fixpoint dfs (fuel : nat) (node : string) (st : state)
  : option (result state) :=
  match fuel with
  | O => None
  | S n =>
      if flt_match flt_low node then Some (Ok st)
      else if bool_decide (node ∈ visited st) then Some (Ok st)
      else
        let st1 := State (graph st) (visited st ∪ {[node]}) in
        match (ver ← crates_latest_version node;
               crates_direct_deps node ver) with
        | Raise Exception => Some (Ok st1)
        | Raise (SystemExit code) => Some (Raise (SystemExit code))
        | Ok deps => each_dep (dfs n) node deps st1
        end
  end.
End Client.

(** All the state of one run: used to state what was visited. *)
Definition run (urlopen : string → reply) (fuel : nat) (root flt : string)
  : option (result state) :=
  dfs urlopen (flt_lower flt) fuel root init.

End Registry.

(** [build_graph_cratesio(root, flt)] against the registry [urlopen]. *)
Definition build_graph_cratesio (urlopen : string → Registry.reply)
           (fuel : nat) (root flt : string) : option (result Graph) :=
  match Registry.run urlopen fuel root flt with
  | Some (Ok st) => Some (Ok (Registry.graph st))
  | Some (Raise e) => Some (Raise e)
  | None => None
  end.

(** ** [dfs_prune_by_filter] *)

Module Prune.

(** The two locals that the inner [dfs] closes over. *)
Record state := State { out : Graph; visited : gset string }.

Definition init : state := State ∅ ∅.

Section Dfs.
Variable g : Graph.
Variable flt_low : string.

(** The body of [for v in g.get(u, ()):], with the recursive call
    [dfs(v)] passed as [rec]. *)
Fixpoint children (rec : string → state → option state)
         (u : string) (vs : list string) (st : state) : option state :=
  match vs with
  | [] => Some st
  | v :: vs' =>
      if flt_match flt_low v then children rec u vs' st
      else
        match rec v (State (graph_add (out st) u v) (visited st)) with
        | Some st' => children rec u vs' st'
        | None => None
        end
  end.

(** The inner function [dfs(u)]; [None] only when the fuel (the depth
    of the call stack) is exhausted. *)
Fixpoint dfs (fuel : nat) (u : string) (st : state) : option state :=
  match fuel with
  | O => None
  | S n =>
      if bool_decide (u ∈ visited st) then Some st
      else if flt_match flt_low u then Some st
      else
        children (dfs n) u (elements (graph_get g u))
                 (State (out st) (visited st ∪ {[u]}))
  end.
End Dfs.

(** A call-stack depth that always suffices: every frame that recurses
    has just marked a fresh node of the graph. *)
Definition depth (g : Graph) (start : string) : nat :=
  S (size (graph_nodes g ∪ {[start]})).

Definition run (g : Graph) (start flt : string) : option state :=
  dfs g (flt_lower flt) (depth g start) start init.

End Prune.

(** [dfs_prune_by_filter(g, start, flt)] *)
Definition dfs_prune_by_filter (g : Graph) (start flt : string) : Graph :=
  match Prune.run g start flt with
  | Some st => Prune.out st
  | None => ∅
  end.

(** ** [reverse_graph] *)

(** The inner loop [for v in nbrs: r[v].add(u)]. *)
Definition reverse_edges (u : string) (vs : list string) (r : Graph) : Graph :=
  foldl (λ r v, graph_add r v u) r vs.

(** One iteration of [for u, nbrs in g.items()]. *)
Definition reverse_item (r : Graph) (item : string * gset string) : Graph :=
  let '(u, nbrs) := item in
  graph_setdefault (reverse_edges u (elements nbrs) r) u.

Definition reverse_items (items : list (string * gset string)) (r : Graph) : Graph :=
  foldl reverse_item r items.

Definition reverse_graph (g : Graph) : Graph :=
  reverse_items (map_to_list g) ∅.

(** ** [reachable] *)

Module Bfs.

(** [seen] and [dq] are the locals of [reachable].  [enq] is a history
    variable: it records, in order, every node that was ever put on the
    deque (by [deque([start])] or by [dq.append(v)]); nothing reads it. *)
Record state := State {
  seen : gset string;
  dq : list string;
  enq : list string
}.

(** [seen = set(); dq = deque([start])] *)
Definition init (start : string) : state := State ∅ [start] [start].

(** The loop [for v in g.get(u, ()):] of one iteration. *)
Fixpoint scan (vs : list string) (st : state) : state :=
  match vs with
  | [] => st
  | v :: vs' =>
      if bool_decide (v ∈ seen st) then scan vs' st
      else scan vs' (State (seen st ∪ {[v]}) (dq st ++ [v]) (enq st ++ [v]))
  end.

(** [while dq: u = dq.popleft(); ...]; [None] only when the fuel (the
    number of evaluations of the loop condition) is exhausted. *)
Fixpoint loop (g : Graph) (fuel : nat) (st : state) : option state :=
  match fuel with
  | O => None
  | S n =>
      match dq st with
      | [] => Some st
      | u :: rest =>
          loop g n (scan (elements (graph_get g u))
                         (State (seen st) rest (enq st)))
      end
  end.

(** The number of evaluations of the loop condition never exceeds the
    number of edge targets plus two. *)
Definition bound (g : Graph) : nat := S (S (size (graph_nodes g))).

Definition run (g : Graph) (start : string) : option state :=
  loop g (bound g) (init start).

End Bfs.

(** [reachable(g, start)] *)
Definition reachable (g : Graph) (start : string) : gset string :=
  match Bfs.run g start with
  | Some st => Bfs.seen st
  | None => ∅
  end.

(** The nodes put on the deque during [reachable(g, start)], in order. *)
Definition enqueued (g : Graph) (start : string) : list string :=
  match Bfs.run g start with
  | Some st => Bfs.enq st
  | None => []
  end.

(** ** Reverse-dependency query of [main] *)

(** The block under [if ns.reverse:] up to the rendering: the reachable
    set [depends_on_me] and the reconstructed graph [g_rev]. *)
Definition rev_keep (depends_on_me : gset string) (package : string)
           (v : string) (g_rev : Graph) (u : string) : Graph :=
  if bool_decide (u ∈ depends_on_me) || String.eqb u package
  then graph_add g_rev v u
  else g_rev.

Definition rev_node (r : Graph) (depends_on_me : gset string) (package : string)
           (g_rev : Graph) (v : string) : Graph :=
  foldl (rev_keep depends_on_me package v) g_rev (elements (graph_get r v)).

Definition reverse_query (full_g : Graph) (package : string)
  : gset string * Graph :=
  let r := reverse_graph full_g in
  let depends_on_me := reachable r package in
  let g_rev := foldl (rev_node r depends_on_me package) ∅
                     (elements depends_on_me) in
  (depends_on_me, g_rev).

(** ** [to_dot] *)

Module Dot.

Definition quote : string := String (ascii_of_nat 34) EmptyString.
Definition newline : string := String (ascii_of_nat 10) EmptyString.

(** [f'  "{u}" -> "{v}";'] *)
Definition edge_stmt (u v : string) : string :=
  "  " ++ quote ++ u ++ quote ++ " -> " ++ quote ++ v ++ quote ++ ";".

(** [f'  "{n}";'] *)
Definition node_stmt (n : string) : string :=
  "  " ++ quote ++ n ++ quote ++ ";".

Definition header : list string :=
  ["digraph deps {"; "  rankdir=LR; node [shape=box, fontsize=10];"].

(** [for v in nbrs: lines.append(...)] *)
Definition emit_edges (u : string) (vs : list string) (lines : list string)
  : list string :=
  foldl (λ lines v, (lines ++ [edge_stmt u v])%list) lines vs.

(** One iteration of [for u, nbrs in g.items()]: the state is the pair
    of the locals [nodes] and [lines]. *)
Definition emit_item (acc : gset string * list string)
           (item : string * gset string) : gset string * list string :=
  let '(nodes, lines) := acc in
  let '(u, nbrs) := item in
  (nodes ∪ nbrs, emit_edges u (elements nbrs) lines).

(** [n not in g and not any(n in s for s in g.values())] *)
Definition standalone (g : Graph) (n : string) : bool :=
  negb (bool_decide (n ∈ dom g)) &&
  negb (existsb (λ s : gset string, bool_decide (n ∈ s)) (map_to_list g).*2).

(** One iteration of [for n in nodes]. *)
Definition emit_node (g : Graph) (lines : list string) (n : string)
  : list string :=
  if standalone g n then (lines ++ [node_stmt n])%list else lines.

Definition to_dot_lines (g : Graph) : list string :=
  let '(nodes, lines) := foldl emit_item (dom g, header) (map_to_list g) in
  let lines := foldl (emit_node g) lines (elements nodes) in
  (lines ++ ["}"])%list.

End Dot.

(** [to_dot(g)] *)
Definition to_dot (g : Graph) : string :=
  Py.join Dot.newline (Dot.to_dot_lines g).

(** * Specification vocabulary *)

(** ** [dfs_prune_by_filter]: what one call of [dfs] does *)

(** The dependencies of [u] that the filter lets through. *)
Definition retained (g : Graph) (flt_low u : string) : gset string :=
  filter (λ v, flt_match flt_low v = false) (graph_get g u).

(** [u] can be reached from [s] along a path none of whose nodes,
    [s] and [u] included, matches the filter. *)
Inductive clean_path (g : Graph) (flt_low s : string) : string → Prop :=
| clean_start :
    flt_match flt_low s = false → clean_path g flt_low s s
| clean_step u v :
    clean_path g flt_low s u → edge g u v → flt_match flt_low v = false →
    clean_path g flt_low s v.

Module PruneSpec.
Import Prune.

Section Invariant.
Variable g : Graph.
Variable flt_low : string.
Variable start : string.

(** What holds of the two locals between any two steps. *)
Record inv (st : state) : Prop := Inv {
  inv_keys : ∀ w, w ∉ visited st → out st !! w = None;
  inv_nonempty : ∀ w X, out st !! w = Some X → X ≠ ∅;
  inv_clean : ∀ w, w ∈ visited st → clean_path g flt_low start w;
  inv_sound : ∀ w, graph_get (out st) w ⊆ retained g flt_low w
}.

(** What a completed call [dfs(v)] has done to the locals: nodes
    visited before keep their entry, nodes visited by the call have
    received all their retained dependencies. *)
Record post (st st' : state) : Prop := Post {
  post_inv : inv st';
  post_mono : visited st ⊆ visited st';
  post_frame : ∀ w, w ∈ visited st → out st' !! w = out st !! w;
  post_new : ∀ w, w ∈ visited st' → w ∉ visited st →
                  graph_get (out st') w = retained g flt_low w;
  post_closed : ∀ w, w ∈ visited st' → w ∉ visited st →
                     retained g flt_low w ⊆ visited st'
}.

(** A node may be passed to [dfs] when, unless the filter stops it,
    it is cleanly reachable. *)
Definition callable (v : string) : Prop :=
  flt_match flt_low v = false → clean_path g flt_low start v.

Definition rec_ok (rec : string → state → option state) : Prop :=
  ∀ v st st', rec v st = Some st' → inv st → callable v →
              post st st' ∧ (flt_match flt_low v = false → v ∈ visited st').

End Invariant.

(** [rec] only ever adds to [visited]. *)
Definition rec_mono (rec : string → state → option state) : Prop :=
  ∀ v st st', rec v st = Some st' → visited st ⊆ visited st'.

End PruneSpec.

(** The nodes that [dfs_prune_by_filter(g, start, flt)] has put into its
    local [visited] when it returns. *)
Definition prune_visited (g : Graph) (start flt : string) : gset string :=
  match Prune.run g start flt with
  | Some st => Prune.visited st
  | None => ∅
  end.

(** ** [build_graph_cratesio] *)

Module RegistrySpec.
Import Registry.

Section Invariant.
Variable urlopen : string → reply.
Variable flt_low : string.

(** The body of the [try] block of the inner [dfs]. *)
Definition fetched (node : string) : result (list (string * string * string)) :=
  ver ← crates_latest_version urlopen node;
  crates_direct_deps urlopen node ver.

(** The names in a list of [(dep, req, kind)] that the filter lets through. *)
Definition unmatched_names (deps : list (string * string * string))
  : gset string :=
  list_to_set (filter (λ v, flt_match flt_low v = false) (deps.*1.*1)).

(** The dependencies that the builder records for a node it expands:
    none when the fetch raised. *)
Definition dep_names (node : string) : gset string :=
  match fetched node with
  | Ok deps => unmatched_names deps
  | Raise _ => ∅
  end.

Variable root : string.

(** [u] is reached from [root] through recorded dependencies: none of
    the nodes on the way matches the filter, and the fetch succeeded for
    each of them but possibly the last. *)
Inductive reg_path : string → Prop :=
| reg_root : flt_match flt_low root = false → reg_path root
| reg_step u v : reg_path u → v ∈ dep_names u → reg_path v.

(** What holds of [graph] and [visited] between any two steps. *)
Record inv (st : state) : Prop := Inv {
  inv_keys : ∀ w, w ∉ visited st → graph st !! w = None;
  inv_nonempty : ∀ w X, graph st !! w = Some X → X ≠ ∅;
  inv_unmatched : ∀ w, w ∈ visited st → flt_match flt_low w = false;
  inv_sound : ∀ w, graph_get (graph st) w ⊆ dep_names w;
  inv_path : ∀ w, w ∈ visited st → reg_path w
}.

(** What a call [dfs(v)] that returned has done: nodes visited before
    keep their entry, nodes visited by the call have received all their
    dependencies, which are visited in turn. *)
Record post (st st' : state) : Prop := Post {
  post_inv : inv st';
  post_mono : visited st ⊆ visited st';
  post_frame : ∀ w, w ∈ visited st → graph st' !! w = graph st !! w;
  post_new : ∀ w, w ∈ visited st' → w ∉ visited st →
                  graph_get (graph st') w = dep_names w;
  post_closed : ∀ w, w ∈ visited st' → w ∉ visited st →
                     dep_names w ⊆ visited st'
}.

(** A node may be passed to [dfs] when, unless the filter stops it, it
    is reached from the root. *)
Definition callable (v : string) : Prop :=
  flt_match flt_low v = false → reg_path v.

Definition rec_ok (rec : string → state → option (result state)) : Prop :=
  ∀ v st st', rec v st = Some (Ok st') → inv st → callable v →
              post st st' ∧ (flt_match flt_low v = false → v ∈ visited st').

(** No visited node had a fetch that ended in an exit. *)
Definition fetches_pass (st : state) : Prop :=
  ∀ w code, w ∈ visited st → fetched w ≠ Raise (SystemExit code).

(** An exit with status [code] comes from [fail], called for the fetch
    of a node that is reached from the root. *)
Definition stopped (code : Z) : Prop :=
  code = 2%Z ∧
  ∃ u, reg_path u ∧ fetched u = Raise (SystemExit 2).

End Invariant.

(** [rec] only ever adds to [visited]. *)
Definition rec_mono (rec : string → state → option (result state)) : Prop :=
  ∀ v st st', rec v st = Some (Ok st') → visited st ⊆ visited st'.

(** Every name that the registry [urlopen] can hand to the builder
    lies in [U]. *)
Definition universe (urlopen : string → reply) (U : gset string) : Prop :=
  ∀ node deps dep, fetched urlopen node = Ok deps → dep ∈ deps.*1.*1 → dep ∈ U.

End RegistrySpec.

(** The nodes that a run of [build_graph_cratesio] that returned has put
    into its local [visited]. *)
Definition build_visited (urlopen : string → Registry.reply)
           (fuel : nat) (root flt : string) : gset string :=
  match Registry.run urlopen fuel root flt with
  | Some (Ok st) => Registry.visited st
  | _ => ∅
  end.

(** ** [reachable] *)

Module BfsSpec.
Import Bfs.

Section Invariant.
Variable g : Graph.
Variable start : string.

(** [u] is the start node or has been seen: it has been on the deque. *)
Definition discovered (st : state) (u : string) : Prop :=
  u = start ∨ u ∈ seen st.

(** What holds while the node [u] taken from the deque is expanded.
    After [start], the history lists every seen node once; a seen node
    is the target of a non-empty path from [start]; and every discovered
    node other than [u] either still waits on the deque or has all its
    successors seen. *)
Record expanding (u : string) (st : state) : Prop := Expanding {
  inv_enq : ∃ l, enq st = start :: l ∧ NoDup l ∧ ∀ v, v ∈ l ↔ v ∈ seen st;
  inv_sound : ∀ v, v ∈ seen st → tc (edge g) start v;
  inv_dq : ∀ w, w ∈ dq st → discovered st w;
  inv_closed : ∀ w, discovered st w →
                    w = u ∨ w ∈ dq st ∨ graph_get g w ⊆ seen st
}.

(** What holds each time the loop condition is evaluated. *)
Record inv (st : state) : Prop := Inv {
  linv_enq : ∃ l, enq st = start :: l ∧ NoDup l ∧ ∀ v, v ∈ l ↔ v ∈ seen st;
  linv_sound : ∀ v, v ∈ seen st → tc (edge g) start v;
  linv_dq : ∀ w, w ∈ dq st → discovered st w;
  linv_closed : ∀ w, discovered st w → w ∈ dq st ∨ graph_get g w ⊆ seen st
}.

(** The quantity that every iteration decreases. *)
Definition measure (st : state) : nat :=
  length (dq st) + size (graph_nodes g ∖ seen st).
End Invariant.

End BfsSpec.

(** ** [to_dot] *)

(** The edges of [g], in the order in which [to_dot] meets them. *)
Definition edge_list (g : Graph) : list (string * string) :=
  '(u, nbrs) ← map_to_list g; pair u <$> elements nbrs.

(** ** [crates_direct_deps] *)

(** The entries that [crates_direct_deps] keeps: not optional, and of
    kind [normal], which an absent or empty [kind] counts as. *)
Definition wanted (d : Registry.dep_entry) : Prop :=
  Registry.optional d = false ∧
  (Registry.kind d = None ∨ Registry.kind d = Some EmptyString ∨
   Registry.kind d = Some "normal").

#[global] Instance wanted_dec (d : Registry.dep_entry) : Decision (wanted d).
Proof. unfold wanted. apply _. Defined.

(** The tuple appended for a kept entry. *)
Definition dep_tuple (d : Registry.dep_entry) : string * string * string :=
  (Registry.crate_id d, Registry.or_default (Registry.req d) EmptyString,
   "normal").

(** ** [load_test_graph] *)

(** A line that the loader skips: blank, or a comment. *)
Definition ignored (line : string) : bool :=
  negb (Py.truthy (Py.strip line)) || Py.startswith "#" (Py.strip line).

(** What a line that is not skipped declares: the node before the first
    colon and the words after it. *)
Definition declaration (line : string) : option (string * list string) :=
  if ignored line then None
  else
    match Py.split_once ":" (Py.strip line) with
    | Some (l, r) => Some (Py.strip l, Py.split (Py.strip r))
    | None => None
    end.

(** A line that the loader accepts. *)
Definition well_formed (line : string) : Prop :=
  ignored line = true ∨
  ∃ u deps, declaration line = Some (u, deps) ∧
            upper_fullmatch u = true ∧
            Forall (λ d, upper_fullmatch d = true) deps.

(** [lines] declares the node [u] with the dependencies [deps]. *)
Definition declares (lines : list string) (u : string) (deps : list string)
  : Prop :=
  ∃ line, line ∈ lines ∧ declaration line = Some (u, deps).

(** ** Statements of the design document *)

(** The key-presence invariant of the edge store: every traversal root
    and every endpoint of an edge is a key. *)
Definition key_presence (roots : gset string) (g : Graph) : Prop :=
  ∀ u, u ∈ roots ∨ (∃ w, edge g u w) ∨ (∃ w, edge g w u) → u ∈ dom g.

(** Every visited node is a key of the output. *)
Definition visited_are_keys (vis : gset string) (g : Graph) : Prop :=
  ∀ u, u ∈ vis → u ∈ dom g.

(** The start node is visited by the initiating call whatever the filter
    says, and its dependencies that do not match are recorded. *)
Definition start_visited_unconditionally (g : Graph) (s f : string) : Prop :=
  s ∈ prune_visited g s f ∧
  ∀ v, edge g s v → flt_match (flt_lower f) v = false →
       edge (dfs_prune_by_filter g s f) s v.

(** ** Sample inputs *)

(** The local description [A: B C] / [B: C] / [C:] and its graph. *)
Definition local_description : list string := ["A: B C"; "B: C"; "C:"].

Definition local_graph : Graph :=
  {[ "A" := {[ "B"; "C" ]}; "B" := {[ "C" ]}; "C" := ∅ ]}.

(** [A: B] / [B: A] *)
Definition cyclic_graph : Graph :=
  {[ "A" := {[ "B" ]}; "B" := {[ "A" ]} ]}.

(** [A: B] / [B:] *)
Definition leaf_graph : Graph :=
  {[ "A" := {[ "B" ]}; "B" := ∅ ]}.

(** [A: C] *)
Definition single_edge_graph : Graph := {[ "A" := {[ "C" ]} ]}.

(** [A:] *)
Definition isolated_graph : Graph := {[ "A" := ∅ ]}.

(** A registry that cannot be reached. *)
Definition unreachable_registry (url : string) : Registry.reply :=
  Registry.URLError.

(** The document of a crate whose newest version is [1.0], and the
    document listing the given names as normal, non-optional
    dependencies. *)
Definition sample_meta : Registry.reply :=
  Registry.Json (Registry.Document (Some "1.0") [] []).

Definition sample_deps (names : list string) : Registry.reply :=
  Registry.Json
    (Registry.Document None []
       ((λ n, Registry.DepEntry false None n None) <$> names)).

(** A registry that knows the crate [a -> b] only: no other URL can be
    opened. *)
Definition partial_registry (url : string) : Registry.reply :=
  if String.eqb url "https://crates.io/api/v1/crates/a" then sample_meta
  else if String.eqb url "https://crates.io/api/v1/crates/a/1.0/dependencies"
  then sample_deps ["b"]
  else Registry.URLError.

(** A registry with the crates [a -> b, c] and [b -> a, c]; the lookup
    of [c] raises an exception other than the three that [http_get_json]
    handles, and any other URL cannot be opened. *)
Definition sample_registry (url : string) : Registry.reply :=
  if String.eqb url "https://crates.io/api/v1/crates/a" then sample_meta
  else if String.eqb url "https://crates.io/api/v1/crates/a/1.0/dependencies"
  then sample_deps ["b"; "c"]
  else if String.eqb url "https://crates.io/api/v1/crates/b" then sample_meta
  else if String.eqb url "https://crates.io/api/v1/crates/b/1.0/dependencies"
  then sample_deps ["a"; "c"]
  else if String.eqb url "https://crates.io/api/v1/crates/c"
  then Registry.OtherError
  else Registry.URLError.

(** * Properties *)

Local Close Scope string_scope.
Local Open Scope nat_scope.

(** ** The edge store *)

Lemma graph_get_add (g : Graph) (u v w : string) :
  graph_get (graph_add g u v) w =
  if decide (u = w) then graph_get g u ∪ {[v]} else graph_get g w.
Proof.
  unfold graph_add, graph_get at 1. rewrite lookup_insert.
  destruct (decide (u = w)); done.
Qed.

Lemma edge_add (g : Graph) (u v a b : string) :
  edge (graph_add g u v) a b ↔ edge g a b ∨ (a = u ∧ b = v).
Proof.
  unfold edge. rewrite graph_get_add.
  destruct (decide (u = a)) as [->|]; set_solver.
Qed.

Lemma lookup_add_ne (g : Graph) (u v w : string) :
  u ≠ w → graph_add g u v !! w = g !! w.
Proof. intros. unfold graph_add. by rewrite lookup_insert_ne. Qed.

Lemma dom_graph_add (g : Graph) (u v : string) :
  dom (graph_add g u v) = {[u]} ∪ dom g.
Proof. unfold graph_add. by rewrite dom_insert_L. Qed.

Lemma graph_get_setdefault (g : Graph) (u w : string) :
  graph_get (graph_setdefault g u) w = graph_get g w.
Proof.
  unfold graph_setdefault, graph_get.
  destruct (g !! u) eqn:E; [done|].
  destruct (decide (u = w)) as [->|].
  - by rewrite lookup_insert_eq, E.
  - by rewrite lookup_insert_ne.
Qed.

Lemma dom_graph_setdefault (g : Graph) (u : string) :
  dom (graph_setdefault g u) = {[u]} ∪ dom g.
Proof.
  unfold graph_setdefault. destruct (g !! u) eqn:E.
  - apply (elem_of_dom_2 (D := gset string)) in E. set_solver.
  - by rewrite dom_insert_L.
Qed.

Lemma graph_get_empty (u : string) : graph_get ∅ u = ∅.
Proof. unfold graph_get. by rewrite lookup_empty. Qed.

Lemma graph_get_None (g : Graph) (u : string) :
  g !! u = None → graph_get g u = ∅.
Proof. unfold graph_get. by intros ->. Qed.

Lemma edge_is_key (g : Graph) (u v : string) : edge g u v → u ∈ dom g.
Proof.
  unfold edge, graph_get. intros H. apply elem_of_dom.
  destruct (g !! u); [eauto | set_solver].
Qed.

Lemma edge_graph_nodes (g : Graph) (u v : string) :
  edge g u v → v ∈ graph_nodes g.
Proof.
  unfold edge, graph_get, graph_nodes. intros H.
  destruct (g !! u) as [X|] eqn:E; [|set_solver].
  apply elem_of_union_r, elem_of_union_list. exists X. split; [|done].
  apply list_elem_of_fmap. exists (u, X). split; [done|].
  by apply elem_of_map_to_list.
Qed.

(** ** The filter *)

Lemma elem_of_retained g flt_low u v :
  v ∈ retained g flt_low u ↔ edge g u v ∧ flt_match flt_low v = false.
Proof. unfold retained, edge. rewrite elem_of_filter. tauto. Qed.

Module PruneFacts.
Import Prune PruneSpec.

Section Invariant.
Variable g : Graph.
Variable flt_low : string.
Variable start : string.

Local Notation inv := (PruneSpec.inv g flt_low start).
Local Notation post := (PruneSpec.post g flt_low start).
Local Notation callable := (PruneSpec.callable g flt_low start).
Local Notation rec_ok := (PruneSpec.rec_ok g flt_low start).

Lemma prune_inv_init : inv init.
Proof.
  split; simpl.
  - intros. apply lookup_empty.
  - intros w X. by rewrite lookup_empty.
  - set_solver.
  - intros w. rewrite graph_get_empty. set_solver.
Qed.

Lemma prune_inv_record st u v :
  inv st → u ∈ visited st → edge g u v → flt_match flt_low v = false →
  inv (State (graph_add (out st) u v) (visited st)).
Proof.
  intros [I1 I2 I3 I4] Hu He Hv. split; simpl.
  - intros w Hw. rewrite lookup_add_ne; [auto | set_solver].
  - intros w X. unfold graph_add. rewrite lookup_insert.
    destruct (decide (u = w)); [|eauto]. intros [= <-]. set_solver.
  - done.
  - intros w. rewrite graph_get_add. destruct (decide (u = w)) as [<-|]; [|done].
    specialize (I4 u). apply union_subseteq. split; [done|].
    apply singleton_subseteq_l, elem_of_retained. done.
Qed.

Lemma prune_inv_mark st u :
  inv st → callable u → flt_match flt_low u = false →
  inv (State (out st) (visited st ∪ {[u]})).
Proof.
  intros [I1 I2 I3 I4] Hc Hu. split; simpl; [| done | | done].
  - intros w Hw. apply I1. set_solver.
  - intros w [Hw| ->%elem_of_singleton]%elem_of_union; auto.
Qed.

Lemma prune_post_refl st : inv st → post st st.
Proof. intros Hinv. split; [done | done | done | done | done]. Qed.

(** The loop over the dependencies of a visited node [u]. *)
Lemma prune_children_post rec u :
  rec_ok rec →
  ∀ vs st st',
    children flt_low rec u vs st = Some st' →
    inv st → u ∈ visited st → (∀ v, v ∈ vs → edge g u v) →
    inv st' ∧ visited st ⊆ visited st' ∧
    (∀ w, w ∈ visited st → w ≠ u → out st' !! w = out st !! w) ∧
    (∀ w, w ∈ visited st' → w ∉ visited st →
          graph_get (out st') w = retained g flt_low w) ∧
    graph_get (out st') u =
      graph_get (out st) u ∪
      list_to_set (filter (λ v, flt_match flt_low v = false) vs) ∧
    (∀ w, w ∈ visited st' → w ∉ visited st →
          retained g flt_low w ⊆ visited st') ∧
    (∀ v, v ∈ vs → flt_match flt_low v = false → v ∈ visited st').
Proof.
  intros Hrec vs. induction vs as [|v vs IH]; intros st st' Hrun Hinv Hu Hvs.
  - simpl in Hrun. injection Hrun as <-. split_and!; try done.
    + rewrite filter_nil, list_to_set_nil. set_solver.
    + intros v []%elem_of_nil.
  - simpl in Hrun.
    assert (∀ x, x ∈ vs → edge g u x) as Hvs' by (intros; apply Hvs; by right).
    destruct (flt_match flt_low v) eqn:Hv.
    + destruct (IH st st' Hrun Hinv Hu Hvs') as (J1 & J2 & J3 & J4 & J5 & J6 & J7).
      split_and!; try done.
      * rewrite J5, filter_cons_False; [done | by rewrite Hv].
      * intros x [->|Hx]%elem_of_cons Hm; [congruence | by apply J7].
    + destruct (rec v _) as [st1|] eqn:Hcall; [|done].
      assert (edge g u v) as He by (apply Hvs; left).
      assert (inv (State (graph_add (out st) u v) (visited st))) as Hi1
        by (by apply prune_inv_record).
      assert (callable v) as Hc.
      { intros _. eapply clean_step; [|done..]. by apply Hinv. }
      destruct (Hrec _ _ _ Hcall Hi1 Hc) as [[P1 P2 P3 P4 P5] Pv]; simpl in *.
      destruct (IH st1 st' Hrun P1) as (J1 & J2 & J3 & J4 & J5 & J6 & J7);
        [by apply P2 | done |].
      split_and!; try done.
      * set_solver.
      * intros w Hw Hne. rewrite J3; [| by apply P2 | done].
        rewrite P3; [|done]. by apply lookup_add_ne.
      * intros w Hw' Hw. destruct (decide (w ∈ visited st1)) as [Hin|Hout].
        -- destruct (decide (w = u)) as [->|Hne]; [done|].
           unfold graph_get at 1. rewrite J3; [|done..].
           by apply P4.
        -- by apply J4.
      * rewrite J5. unfold graph_get at 1. rewrite P3; [|done].
        fold (graph_get (graph_add (out st) u v) u).
        rewrite graph_get_add, decide_True, filter_cons_True by done.
        set_solver.
      * intros w Hw' Hw. destruct (decide (w ∈ visited st1)) as [Hin|Hout].
        -- etrans; [by apply P5 | done].
        -- by apply J6.
      * intros x [->|Hx]%elem_of_cons Hm; [by apply J2, Pv | by apply J7].
Qed.

Lemma prune_dfs_post fuel : rec_ok (dfs g flt_low fuel).
Proof.
  induction fuel as [|n IH]; intros u st st' Hrun Hinv Hcall; [done|].
  simpl in Hrun. case_bool_decide as Hvis.
  { injection Hrun as <-. split; [by apply prune_post_refl | done]. }
  destruct (flt_match flt_low u) eqn:Hu.
  { injection Hrun as <-. split; [by apply prune_post_refl | done]. }
  apply (prune_children_post _ _ IH) in Hrun
    as (J1 & J2 & J3 & J4 & J5 & J6 & J7); simpl in *.
  - split; [split|]; [done | set_solver | | | | set_solver].
    + intros w Hw. apply J3; set_solver.
    + intros w Hw' Hw. destruct (decide (w = u)) as [->|Hne].
      * rewrite J5, (graph_get_None (out st)) by by apply Hinv.
        apply set_eq. intros x.
        rewrite elem_of_union, elem_of_list_to_set, list_elem_of_filter,
          elem_of_elements, elem_of_retained. unfold edge. set_solver.
      * apply J4; set_solver.
    + intros w Hw' Hw. destruct (decide (w = u)) as [->|Hne].
      * intros x [Hx Hm]%elem_of_retained. apply J7; [|done].
        by apply elem_of_elements.
      * apply J6; set_solver.
  - by apply prune_inv_mark.
  - set_solver.
  - intros v Hv. by apply elem_of_elements in Hv.
Qed.
End Invariant.

(** *** Termination: the call stack is never deeper than the graph *)

Section Termination.
Variable g : Graph.
Variable flt_low : string.

Lemma prune_children_mono rec u :
  rec_mono rec →
  ∀ vs st st', children flt_low rec u vs st = Some st' →
               visited st ⊆ visited st'.
Proof.
  intros Hrec vs. induction vs as [|v vs IH]; intros st st' Hrun; simpl in Hrun.
  - by injection Hrun as <-.
  - destruct (flt_match flt_low v); [by apply IH|].
    destruct (rec v _) as [st1|] eqn:Hcall; [|done].
    apply Hrec in Hcall. apply IH in Hrun. simpl in *. set_solver.
Qed.

Lemma prune_dfs_mono fuel : rec_mono (dfs g flt_low fuel).
Proof.
  induction fuel as [|n IH]; intros u st st' Hrun; [done|].
  simpl in Hrun. case_bool_decide; [by injection Hrun as <-|].
  destruct (flt_match flt_low u); [by injection Hrun as <-|].
  apply (prune_children_mono _ _ IH) in Hrun. simpl in *. set_solver.
Qed.

Lemma size_unvisited_mark (U X : gset string) (u : string) :
  u ∈ U → u ∉ X → (S (size (U ∖ (X ∪ {[u]}))) ≤ size (U ∖ X))%nat.
Proof.
  intros HU HX.
  apply Nat.le_succ_l, subset_size.
  split; [set_solver|]. intros Hsub. specialize (Hsub u). set_solver.
Qed.

(** Only the nodes of [U] matter when [U] contains the start node and
    every edge target. *)
Lemma prune_dfs_total U :
  (∀ a b, edge g a b → b ∈ U) →
  ∀ n u st, u ∈ U → size (U ∖ visited st) < n →
            is_Some (dfs g flt_low n u st).
Proof.
  intros Hclosed n. induction n as [|n IH]; intros u st Hu Hsz; [lia|].
  simpl. case_bool_decide as Hvis; [eauto|].
  destruct (flt_match flt_low u); [eauto|].
  assert (size (U ∖ (visited st ∪ {[u]})) < n) as Hsz'.
  { pose proof (size_unvisited_mark U (visited st) u Hu Hvis). lia. }
  assert (∀ vs st1, (∀ v, v ∈ vs → v ∈ U) →
                    size (U ∖ visited st1) < n →
                    is_Some (children flt_low (dfs g flt_low n) u vs st1)) as Hloop.
  { intros vs. induction vs as [|v vs IHvs]; intros st1 Hvs Hsz1; simpl; [eauto|].
    destruct (flt_match flt_low v).
    { apply IHvs; [|done]. intros. apply Hvs. by right. }
    destruct (IH v (State (graph_add (out st1) u v) (visited st1)))
      as [st2 Hcall]; [apply Hvs; by left | done |].
    rewrite Hcall. apply IHvs.
    - intros. apply Hvs. by right.
    - apply prune_dfs_mono in Hcall. simpl in Hcall.
      eapply Nat.le_lt_trans; [|exact Hsz1].
      apply subseteq_size. set_solver. }
  apply Hloop; [|done].
  intros v Hv%elem_of_elements. by eapply Hclosed.
Qed.

(** More fuel never changes a result. *)
Lemma prune_children_fuel rec rec' u :
  (∀ v st st', rec v st = Some st' → rec' v st = Some st') →
  ∀ vs st st', children flt_low rec u vs st = Some st' →
               children flt_low rec' u vs st = Some st'.
Proof.
  intros Hrec vs. induction vs as [|v vs IH]; intros st st' Hrun; simpl in *; [done|].
  destruct (flt_match flt_low v); [by apply IH|].
  destruct (rec v _) as [st1|] eqn:Hcall; [|done].
  rewrite (Hrec _ _ _ Hcall). by apply IH.
Qed.

Lemma prune_dfs_fuel n m u st st' :
  (n ≤ m)%nat → dfs g flt_low n u st = Some st' → dfs g flt_low m u st = Some st'.
Proof.
  revert m u st st'. induction n as [|n IH]; intros m u st st' Hle Hrun; [done|].
  destruct m as [|m]; [lia|]. simpl in *.
  case_bool_decide; [done|]. destruct (flt_match flt_low u); [done|].
  eapply prune_children_fuel; [|exact Hrun].
  intros v st1 st2. apply IH. lia.
Qed.
End Termination.

(** *** The complete run *)

Lemma prune_run_total g start flt : is_Some (run g start flt).
Proof.
  unfold run, depth.
  apply (prune_dfs_total g _ (graph_nodes g ∪ {[start]})).
  - intros a b Hab. apply elem_of_union_l. by eapply edge_graph_nodes.
  - set_solver.
  - simpl. rewrite difference_empty_L. lia.
Qed.

(** Any call-stack depth that lets the run finish gives the result of
    [run]. *)
Lemma prune_run_any_fuel g start flt fuel st :
  dfs g (flt_lower flt) fuel start init = Some st → run g start flt = Some st.
Proof.
  intros Hrun. destruct (prune_run_total g start flt) as [st' Hst']. rewrite Hst'.
  unfold run in Hst'.
  destruct (Nat.le_ge_cases fuel (depth g start)) as [Hle|Hle].
  - by rewrite (prune_dfs_fuel _ _ _ _ _ _ _ Hle Hrun) in Hst'.
  - by rewrite (prune_dfs_fuel _ _ _ _ _ _ _ Hle Hst') in Hrun.
Qed.

Lemma prune_run_post g start flt st :
  run g start flt = Some st →
  PruneSpec.post g (flt_lower flt) start init st ∧
  (flt_match (flt_lower flt) start = false → start ∈ visited st).
Proof.
  intros Hrun. eapply prune_dfs_post; [exact Hrun | apply prune_inv_init |].
  intros Hs. by apply clean_start.
Qed.

(** The nodes visited by a run: those reached from the start along a
    path that the filter lets through. *)
Lemma prune_run_visited g start flt st :
  run g start flt = Some st →
  ∀ u, u ∈ visited st ↔ clean_path g (flt_lower flt) start u.
Proof.
  intros [[[I1 I2 I3 I4] _ _ _ Hclosed] Hstart]%prune_run_post u.
  split; [by apply I3|].
  induction 1 as [Hs|v w _ IH Hvw Hw]; [by apply Hstart|].
  apply (Hclosed v IH); [set_solver|]. by apply elem_of_retained.
Qed.

(** The result of a run, node by node. *)
Lemma prune_run_result g start flt st :
  run g start flt = Some st →
  ∀ u, graph_get (out st) u =
         (if decide (u ∈ visited st) then retained g (flt_lower flt) u else ∅) ∧
       (u ∈ dom (out st) ↔
          u ∈ visited st ∧ retained g (flt_lower flt) u ≠ ∅).
Proof.
  intros [[[I1 I2 I3 I4] _ _ Hnew _] _]%prune_run_post u.
  assert (graph_get (out st) u =
          if decide (u ∈ visited st) then retained g (flt_lower flt) u else ∅) as Hget.
  { destruct (decide (u ∈ visited st)) as [Hu|Hu].
    - apply Hnew; [done | set_solver].
    - by apply graph_get_None, I1. }
  split; [done|].
  rewrite elem_of_dom. split.
  - intros [X HX]. destruct (decide (u ∈ visited st)) as [Hu|Hu].
    + split; [done|]. rewrite <- Hget. unfold graph_get. rewrite HX. simpl.
      by eapply I2.
    + by rewrite I1 in HX.
  - intros [Hu Hne]. rewrite decide_True in Hget by done.
    destruct (out st !! u) as [X|] eqn:HX; [eauto|].
    rewrite graph_get_None in Hget by done. by rewrite <- Hget in Hne.
Qed.

End PruneFacts.

(** ** [build_graph_cratesio]: what one call of [dfs] does *)

Module RegistryFacts.
Import Registry RegistrySpec.

Lemma truthy_lower (s : string) : Py.truthy (Py.lower s) = Py.truthy s.
Proof. by destruct s. Qed.

Section Invariant.
Variable urlopen : string → reply.
Variable flt_low : string.
Variable root : string.

Local Notation inv := (RegistrySpec.inv urlopen flt_low root).
Local Notation post := (RegistrySpec.post urlopen flt_low root).
Local Notation rec_ok := (RegistrySpec.rec_ok urlopen flt_low root).
Local Notation callable := (RegistrySpec.callable urlopen flt_low root).
Local Notation dep_names := (RegistrySpec.dep_names urlopen flt_low).
Local Notation unmatched_names := (RegistrySpec.unmatched_names flt_low).

Lemma elem_of_unmatched_names deps v :
  v ∈ unmatched_names deps ↔ v ∈ deps.*1.*1 ∧ flt_match flt_low v = false.
Proof.
  unfold RegistrySpec.unmatched_names.
  rewrite elem_of_list_to_set, list_elem_of_filter. tauto.
Qed.

Lemma dep_names_unmatched node v :
  v ∈ dep_names node → flt_match flt_low v = false.
Proof.
  unfold RegistrySpec.dep_names. destruct (fetched urlopen node); [|set_solver].
  rewrite elem_of_unmatched_names. tauto.
Qed.

Lemma build_inv_init : inv init.
Proof.
  split; simpl.
  - intros. apply lookup_empty.
  - intros w X. by rewrite lookup_empty.
  - set_solver.
  - intros w. rewrite graph_get_empty. set_solver.
  - set_solver.
Qed.

Lemma build_inv_record st node dep :
  inv st → node ∈ visited st → dep ∈ dep_names node →
  inv (State (graph_add (graph st) node dep) (visited st)).
Proof.
  intros [I1 I2 I3 I4 I5] Hn Hd. split; simpl.
  - intros w Hw. rewrite lookup_add_ne; [auto | set_solver].
  - intros w X. unfold graph_add. rewrite lookup_insert.
    destruct (decide (node = w)); [|eauto]. intros [= <-]. set_solver.
  - done.
  - intros w. rewrite graph_get_add. destruct (decide (node = w)) as [<-|]; [|done].
    specialize (I4 node). set_solver.
  - done.
Qed.

Lemma build_inv_mark st node :
  inv st → callable node → flt_match flt_low node = false →
  inv (State (graph st) (visited st ∪ {[node]})).
Proof.
  intros [I1 I2 I3 I4 I5] Hc Hn. split; simpl; [| done | | done |].
  - intros w Hw. apply I1. set_solver.
  - intros w [Hw| ->%elem_of_singleton]%elem_of_union; auto.
  - intros w [Hw| ->%elem_of_singleton]%elem_of_union; auto.
Qed.

Lemma build_post_refl st : inv st → post st st.
Proof. intros Hinv. split; done. Qed.

(** The loop over the fetched dependencies of a visited node. *)
Lemma build_each_dep_post rec node :
  rec_ok rec →
  ∀ deps st st',
    each_dep flt_low rec node deps st = Some (Ok st') →
    inv st → node ∈ visited st →
    unmatched_names deps ⊆ dep_names node →
    inv st' ∧ visited st ⊆ visited st' ∧
    (∀ w, w ∈ visited st → w ≠ node → graph st' !! w = graph st !! w) ∧
    (∀ w, w ∈ visited st' → w ∉ visited st →
          graph_get (graph st') w = dep_names w) ∧
    graph_get (graph st') node = graph_get (graph st) node ∪ unmatched_names deps ∧
    (∀ w, w ∈ visited st' → w ∉ visited st → dep_names w ⊆ visited st') ∧
    unmatched_names deps ⊆ visited st'.
Proof.
  intros Hrec deps.
  induction deps as [|[[dep rq] kd] deps IH]; intros st st' Hrun Hinv Hn Hsub.
  - simpl in Hrun. injection Hrun as <-. split_and!; try done.
    apply set_eq. intros x. rewrite elem_of_union, elem_of_unmatched_names.
    simpl. set_solver.
  - simpl in Hrun.
    assert (unmatched_names deps ⊆ dep_names node) as Hsub'.
    { intros x Hx. apply Hsub. revert Hx. rewrite !elem_of_unmatched_names.
      simpl. set_solver. }
    destruct (flt_match flt_low dep) eqn:Hd.
    + destruct (IH st st' Hrun Hinv Hn Hsub') as (J1 & J2 & J3 & J4 & J5 & J6 & J7).
      assert (unmatched_names ((dep, rq, kd) :: deps) = unmatched_names deps) as Heq.
      { apply set_eq. intros x. rewrite !elem_of_unmatched_names.
        simpl. rewrite elem_of_cons. split; [|tauto].
        intros [[->|?] ?]; [congruence | tauto]. }
      rewrite Heq. split_and!; done.
    + assert (dep ∈ dep_names node) as Hdep.
      { apply Hsub, elem_of_unmatched_names. simpl. set_solver. }
      pose proof (build_inv_record st node dep Hinv Hn Hdep) as Hi1.
      set (st1 := State (graph_add (graph st) node dep) (visited st)) in *.
      assert (unmatched_names ((dep, rq, kd) :: deps) =
              {[dep]} ∪ unmatched_names deps) as Heq.
      { apply set_eq. intros x. rewrite elem_of_union, !elem_of_unmatched_names.
        simpl. rewrite elem_of_cons, elem_of_singleton. split; [tauto|].
        intros [->|?]; tauto. }
      assert (graph_get (graph st1) node ∪ unmatched_names deps =
              graph_get (graph st) node ∪ unmatched_names ((dep, rq, kd) :: deps)) as Hacc.
      { rewrite Heq. simpl. rewrite graph_get_add, decide_True by done. set_solver. }
      rewrite Heq.
      case_bool_decide as Hvis.
      * destruct (IH st1 st' Hrun Hi1 Hn Hsub') as (J1 & J2 & J3 & J4 & J5 & J6 & J7).
        simpl in *. split_and!; try done.
        -- intros w Hw Hne. rewrite J3 by done. by apply lookup_add_ne.
        -- by rewrite J5, Hacc, Heq.
        -- set_solver.
      * destruct (rec dep st1) as [[st2|e]|] eqn:Hcall; [|done..].
        assert (callable dep) as Hc.
        { intros _. eapply reg_step; [|exact Hdep]. by apply Hinv. }
        destruct (Hrec _ _ _ Hcall Hi1 Hc) as [[P1 P2 P3 P4 P5] Pv]; simpl in *.
        destruct (IH st2 st' Hrun P1) as (J1 & J2 & J3 & J4 & J5 & J6 & J7);
          [by apply P2 | done |].
        split_and!; try done.
        -- set_solver.
        -- intros w Hw Hne. rewrite J3; [| by apply P2 | done].
           rewrite P3; [|done]. by apply lookup_add_ne.
        -- intros w Hw' Hw. destruct (decide (w ∈ visited st2)) as [Hin|Hout].
           ++ destruct (decide (w = node)) as [->|Hne]; [done|].
              unfold graph_get at 1. rewrite J3; [|done..].
              by apply P4.
           ++ by apply J4.
        -- rewrite J5, <- Heq, <- Hacc. f_equal.
           unfold graph_get at 1. by rewrite P3.
        -- intros w Hw' Hw. destruct (decide (w ∈ visited st2)) as [Hin|Hout].
           ++ etrans; [by apply P5 | done].
           ++ by apply J6.
        -- apply union_subseteq. split; [|done].
           apply singleton_subseteq_l, J2, Pv. done.
Qed.

Lemma build_dfs_post fuel : rec_ok (dfs urlopen flt_low fuel).
Proof.
  induction fuel as [|n IH]; intros node st st' Hrun Hinv Hcall; [done|].
  simpl in Hrun. destruct (flt_match flt_low node) eqn:Hn.
  { injection Hrun as <-. split; [by apply build_post_refl | done]. }
  case_bool_decide as Hvis.
  { injection Hrun as <-. split; [by apply build_post_refl | done]. }
  pose proof (build_inv_mark st node Hinv Hcall Hn) as Hi1.
  fold (fetched urlopen node) in Hrun.
  destruct (fetched urlopen node) as [deps|[code|]] eqn:Hf; [| done |].
  - apply (build_each_dep_post _ _ IH) in Hrun
      as (J1 & J2 & J3 & J4 & J5 & J6 & J7); simpl in *;
      [| done | set_solver | by unfold RegistrySpec.dep_names; rewrite Hf].
    assert (dep_names node = unmatched_names deps) as Hdn
      by (by unfold RegistrySpec.dep_names; rewrite Hf).
    split; [split|]; [done | set_solver | | | | set_solver].
    + intros w Hw. apply J3; set_solver.
    + intros w Hw' Hw. destruct (decide (w = node)) as [->|Hne].
      * rewrite J5, (graph_get_None (graph st)) by by apply Hinv.
        rewrite Hdn. set_solver.
      * apply J4; set_solver.
    + intros w Hw' Hw. destruct (decide (w = node)) as [->|Hne].
      * by rewrite Hdn.
      * apply J6; set_solver.
  - injection Hrun as <-.
    assert (dep_names node = ∅) as Hdn
      by (by unfold RegistrySpec.dep_names; rewrite Hf).
    split; [split|]; simpl; [done | set_solver | done | | | set_solver].
    + intros w Hw' Hw. assert (w = node) as -> by set_solver.
      rewrite graph_get_None by by apply Hinv. done.
    + intros w Hw' Hw. assert (w = node) as -> by set_solver.
      rewrite Hdn. set_solver.
Qed.
End Invariant.

(** *** Termination, when the registry offers finitely many names *)

Section Termination.
Variable urlopen : string → reply.
Variable flt_low : string.

Lemma build_each_dep_mono rec node :
  rec_mono rec →
  ∀ deps st st', each_dep flt_low rec node deps st = Some (Ok st') →
                 visited st ⊆ visited st'.
Proof.
  intros Hrec deps.
  induction deps as [|[[dep rq] kd] deps IH]; intros st st' Hrun; simpl in Hrun.
  - by injection Hrun as <-.
  - destruct (flt_match flt_low dep); [by apply IH|].
    case_bool_decide; [by apply IH in Hrun|].
    destruct (rec dep _) as [[st1|e]|] eqn:Hcall; [|done..].
    apply Hrec in Hcall. apply IH in Hrun. simpl in *. set_solver.
Qed.

Lemma build_dfs_mono fuel : rec_mono (dfs urlopen flt_low fuel).
Proof.
  induction fuel as [|n IH]; intros node st st' Hrun; [done|].
  simpl in Hrun. destruct (flt_match flt_low node); [by injection Hrun as <-|].
  case_bool_decide; [by injection Hrun as <-|].
  destruct (_ ≫= _) as [deps|[code|]]; [| done |].
  - apply (build_each_dep_mono _ _ IH) in Hrun. simpl in *. set_solver.
  - injection Hrun as <-. simpl. set_solver.
Qed.

Lemma build_dfs_total U :
  universe urlopen U →
  ∀ n node st, node ∈ U → size (U ∖ visited st) < n →
               is_Some (dfs urlopen flt_low n node st).
Proof.
  intros HU n. induction n as [|n IH]; intros node st Hn Hsz; [lia|].
  simpl. destruct (flt_match flt_low node); [eauto|].
  case_bool_decide as Hvis; [eauto|].
  assert (size (U ∖ (visited st ∪ {[node]})) < n) as Hsz'.
  { pose proof (PruneFacts.size_unvisited_mark U (visited st) node Hn Hvis). lia. }
  fold (fetched urlopen node).
  destruct (fetched urlopen node) as [deps|[code|]] eqn:Hf; [| eauto..].
  assert (∀ dep, dep ∈ deps.*1.*1 → dep ∈ U) as Hdeps by (intros; by eapply HU).
  assert (∀ ds st1, (∀ d, d ∈ ds.*1.*1 → d ∈ U) →
                    size (U ∖ visited st1) < n →
                    is_Some (each_dep flt_low (dfs urlopen flt_low n) node ds st1))
    as Hloop; [|by apply Hloop].
  clear -IH. intros ds.
  induction ds as [|[[dep rq] kd] ds IHds]; intros st Hds Hsz; simpl; [eauto|].
  assert (∀ d, d ∈ ds.*1.*1 → d ∈ U) as Hds'.
  { intros d Hd. apply Hds. simpl. by right. }
  destruct (flt_match flt_low dep); [by apply IHds|].
  case_bool_decide; [by apply IHds|].
  destruct (IH dep (State (graph_add (graph st) node dep) (visited st)))
    as [[st2|e] Hcall]; [apply Hds; simpl; by left | done | | ]; rewrite Hcall.
  - apply IHds; [done|].
    apply build_dfs_mono in Hcall. simpl in Hcall.
    eapply Nat.le_lt_trans; [|exact Hsz].
    apply subseteq_size. set_solver.
  - eauto.
Qed.

(** More fuel never changes an outcome. *)
Lemma build_each_dep_fuel rec rec' node :
  (∀ v st r, rec v st = Some r → rec' v st = Some r) →
  ∀ deps st r, each_dep flt_low rec node deps st = Some r →
               each_dep flt_low rec' node deps st = Some r.
Proof.
  intros Hrec deps.
  induction deps as [|[[dep rq] kd] deps IH]; intros st r Hrun; simpl in *; [done|].
  destruct (flt_match flt_low dep); [by apply IH|].
  case_bool_decide; [by apply IH|].
  destruct (rec dep _) as [[st1|e]|] eqn:Hcall; [| |done];
    rewrite (Hrec _ _ _ Hcall); [by apply IH | done].
Qed.

Lemma build_dfs_fuel n m node st r :
  n ≤ m → dfs urlopen flt_low n node st = Some r →
  dfs urlopen flt_low m node st = Some r.
Proof.
  revert m node st r. induction n as [|n IH]; intros m node st r Hle Hrun; [done|].
  destruct m as [|m]; [lia|]. simpl in *.
  destruct (flt_match flt_low node); [done|]. case_bool_decide; [done|].
  destruct (_ ≫= _) as [deps|[code|]]; [| done..].
  eapply build_each_dep_fuel; [|exact Hrun].
  intros v st1 r1. apply IH. lia.
Qed.
End Termination.

(** *** The complete run *)

Lemma build_run_total urlopen U root flt :
  universe urlopen U → root ∈ U →
  ∀ fuel, size U < fuel → is_Some (run urlopen fuel root flt).
Proof.
  intros HU Hroot fuel Hfuel. unfold run.
  apply (build_dfs_total urlopen _ U); [done..|].
  simpl. by rewrite difference_empty_L.
Qed.

Lemma build_run_fuel urlopen root flt n m r :
  n ≤ m → run urlopen n root flt = Some r → run urlopen m root flt = Some r.
Proof. apply build_dfs_fuel. Qed.

Lemma build_run_post urlopen fuel root flt st :
  run urlopen fuel root flt = Some (Ok st) →
  RegistrySpec.post urlopen (flt_lower flt) root init st ∧
  (flt_match (flt_lower flt) root = false → root ∈ visited st).
Proof.
  intros Hrun. eapply build_dfs_post; [exact Hrun | apply build_inv_init |].
  intros Hroot. by apply reg_root.
Qed.

(** The nodes visited by a run that returned: those reached from the
    root through recorded dependencies. *)
Lemma build_run_visited urlopen fuel root flt st :
  run urlopen fuel root flt = Some (Ok st) →
  ∀ u, u ∈ visited st ↔ reg_path urlopen (flt_lower flt) root u.
Proof.
  intros [[[I1 I2 I3 I4 I5] _ _ _ Hclosed] Hroot]%build_run_post u.
  split; [by apply I5|].
  induction 1 as [Hr|v w _ IH Hvw]; [by apply Hroot|].
  apply (Hclosed v IH); [set_solver | done].
Qed.

(** The result of a run that returned, node by node. *)
Lemma build_run_result urlopen fuel root flt st :
  run urlopen fuel root flt = Some (Ok st) →
  ∀ u, (u ∈ visited st → flt_match (flt_lower flt) u = false) ∧
       graph_get (graph st) u =
         (if decide (u ∈ visited st)
          then dep_names urlopen (flt_lower flt) u else ∅) ∧
       (u ∈ dom (graph st) ↔
          u ∈ visited st ∧ dep_names urlopen (flt_lower flt) u ≠ ∅).
Proof.
  intros [[[I1 I2 I3 I4 I5] _ _ Hnew _] _]%build_run_post u.
  assert (graph_get (graph st) u =
          if decide (u ∈ visited st)
          then dep_names urlopen (flt_lower flt) u else ∅) as Hget.
  { destruct (decide (u ∈ visited st)) as [Hu|Hu].
    - apply Hnew; [done | set_solver].
    - by apply graph_get_None, I1. }
  split_and!; [by apply I3 | done |].
  rewrite elem_of_dom. split.
  - intros [X HX]. destruct (decide (u ∈ visited st)) as [Hu|Hu].
    + split; [done|]. rewrite <- Hget. unfold graph_get. rewrite HX. simpl.
      by eapply I2.
    + by rewrite I1 in HX.
  - intros [Hu Hne]. rewrite decide_True in Hget by done.
    destruct (graph st !! u) as [X|] eqn:HX; [eauto|].
    rewrite graph_get_None in Hget by done. by rewrite <- Hget in Hne.
Qed.

End RegistryFacts.

(** ** [reachable]: the worklist loop *)

Module BfsFacts.
Import Bfs BfsSpec.

Section Invariant.
Variable g : Graph.
Variable start : string.

Local Notation inv := (BfsSpec.inv g start).
Local Notation expanding := (BfsSpec.expanding g start).
Local Notation discovered := (BfsSpec.discovered start).
Local Notation measure := (BfsSpec.measure g).

Lemma bfs_inv_init : inv (init start).
Proof.
  split; simpl.
  - exists []. split_and!; [done | constructor | set_solver].
  - set_solver.
  - intros w ->%list_elem_of_singleton. by left.
  - intros w [->|Hw]; [left; by left | set_solver].
Qed.

(** Taking [u] off the deque. *)
Lemma inv_pop st u rest :
  inv st → dq st = u :: rest →
  expanding u (State (seen st) rest (enq st)) ∧ discovered st u.
Proof.
  intros [I1 I2 I3 I4] Hdq. split; [split; simpl; try done|].
  - intros w Hw. apply I3. rewrite Hdq. by right.
  - intros w Hw. destruct (I4 w Hw) as [Hin|Hsub]; [|by right; right].
    rewrite Hdq in Hin. apply elem_of_cons in Hin as [->|Hin]; [by left|].
    right. by left.
  - apply I3. rewrite Hdq. by left.
Qed.

(** One step of the inner loop, for a successor [v] of [u] not seen yet. *)
Lemma expanding_add st u v :
  expanding u st → discovered st u → edge g u v → v ∉ seen st →
  expanding u (State (seen st ∪ {[v]}) (dq st ++ [v]) (enq st ++ [v])).
Proof.
  intros [(l & El & Nl & Hl) I2 I3 I4] Hu He Hv. split; simpl.
  - exists (l ++ [v]). split_and!.
    + by rewrite El.
    + apply NoDup_app. split_and!; [done | | apply NoDup_singleton].
      intros x Hx ->%list_elem_of_singleton. by apply Hv, Hl.
    + intros x. rewrite elem_of_app, list_elem_of_singleton, Hl. set_solver.
  - intros x [Hx| ->%elem_of_singleton]%elem_of_union; [by apply I2|].
    destruct Hu as [->|Hu]; [by apply tc_once|].
    eapply tc_r; [by apply I2 | done].
  - intros w [Hw| ->%list_elem_of_singleton]%elem_of_app.
    + destruct (I3 w Hw) as [->|?]; [by left | right; set_solver].
    + right. set_solver.
  - intros w [->|[Hw| ->%elem_of_singleton]%elem_of_union].
    + destruct (I4 start) as [?|[?|?]]; [by left | by left | |].
      * right; left. set_solver.
      * right; right. set_solver.
    + destruct (I4 w) as [?|[?|?]]; [by right | by left | |].
      * right; left. set_solver.
      * right; right. set_solver.
    + right; left. set_solver.
Qed.

Lemma measure_add st v :
  v ∈ graph_nodes g → v ∉ seen st →
  measure (State (seen st ∪ {[v]}) (dq st ++ [v]) (enq st ++ [v])) ≤ measure st.
Proof.
  intros HU Hv. unfold BfsSpec.measure. simpl. rewrite length_app. simpl.
  pose proof (PruneFacts.size_unvisited_mark _ _ _ HU Hv). lia.
Qed.

(** The whole inner loop over the successors of [u]. *)
Lemma scan_expanding u vs :
  ∀ st, expanding u st → discovered st u → (∀ v, v ∈ vs → edge g u v) →
        let st' := scan vs st in
        expanding u st' ∧ seen st ⊆ seen st' ∧ measure st' ≤ measure st ∧
        ∀ v, v ∈ vs → v ∈ seen st'.
Proof.
  induction vs as [|v vs IH]; intros st Hexp Hu Hvs; simpl.
  - split_and!; [done | done | done | set_solver].
  - assert (∀ x, x ∈ vs → edge g u x) as Hvs' by (intros; apply Hvs; by right).
    case_bool_decide as Hv.
    + destruct (IH st Hexp Hu Hvs') as (J1 & J2 & J3 & J4).
      split_and!; [done..|].
      intros x [->|Hx]%elem_of_cons; [by apply J2 | by apply J4].
    + assert (edge g u v) as He by (apply Hvs; by left).
      destruct (IH _ (expanding_add st u v Hexp Hu He Hv)) as (J1 & J2 & J3 & J4);
        [destruct Hu; [by left | right; set_solver] | done |].
      simpl in *. split_and!; [done | set_solver | |].
      * etrans; [exact J3|]. apply measure_add; [|done].
        by eapply edge_graph_nodes.
      * intros x [->|Hx]%elem_of_cons; [apply J2; set_solver | by apply J4].
Qed.

(** When the node [u] has been expanded the loop invariant holds again. *)
Lemma expanding_done st u :
  expanding u st → graph_get g u ⊆ seen st → inv st.
Proof.
  intros [I1 I2 I3 I4] Hu. split; try done.
  intros w Hw. destruct (I4 w Hw) as [->|[?|?]]; auto.
Qed.

(** The loop ends, in a state where nothing is left to expand. *)
Lemma loop_total n :
  ∀ st, inv st → measure st < n →
        ∃ st', loop g n st = Some st' ∧ inv st' ∧ dq st' = [].
Proof.
  induction n as [|n IH]; intros st Hinv Hm; [lia|].
  simpl. destruct (dq st) as [|u rest] eqn:Hdq; [eauto|].
  destruct (inv_pop st u rest Hinv Hdq) as [Hexp Hu].
  pose proof (scan_expanding u (elements (graph_get g u)) _ Hexp Hu) as Hscan.
  destruct Hscan as (J1 & J2 & J3 & J4).
  { intros v Hv. by apply elem_of_elements in Hv. }
  apply IH.
  - eapply expanding_done; [exact J1|].
    intros v Hv. by apply J4, elem_of_elements.
  - eapply Nat.le_lt_trans; [exact J3|].
    unfold BfsSpec.measure in *. rewrite Hdq in Hm. simpl in *. lia.
Qed.

(** More fuel never changes the result. *)
Lemma loop_fuel n m st st' :
  n ≤ m → loop g n st = Some st' → loop g m st = Some st'.
Proof.
  revert m st. induction n as [|n IH]; intros m st Hle Hrun; [done|].
  destruct m as [|m]; [lia|]. simpl in *.
  destruct (dq st); [done|]. apply IH; [lia | done].
Qed.

(** When the deque is empty the seen set is closed under the edges. *)
Lemma inv_complete st v :
  inv st → dq st = [] → tc (edge g) start v → v ∈ seen st.
Proof.
  intros [_ _ _ I4] Hdq Htc.
  assert (∀ w, discovered st w → graph_get g w ⊆ seen st) as Hclosed.
  { intros w Hw. destruct (I4 w Hw) as [Hin|?]; [|done].
    rewrite Hdq in Hin. by apply elem_of_nil in Hin. }
  assert (∀ x, tc (edge g) x v → discovered st x → v ∈ seen st) as Hgen.
  { clear Htc. intros x Hx.
    induction Hx as [x y Hxy|x y z Hxy _ IH]; intros Hx.
    - by apply (Hclosed x Hx).
    - apply IH. right. by apply (Hclosed x Hx). }
  apply (Hgen start Htc). by left.
Qed.
End Invariant.

(** *** The complete run *)

Lemma run_spec g start :
  ∃ st, run g start = Some st ∧ BfsSpec.inv g start st ∧ dq st = [].
Proof.
  apply loop_total; [apply bfs_inv_init|].
  unfold BfsSpec.measure, bound. simpl. rewrite difference_empty_L. lia.
Qed.

(** Any number of iterations that lets the loop finish gives the result
    of [run]. *)
Lemma bfs_run_any_fuel g start fuel st :
  loop g fuel (init start) = Some st → run g start = Some st.
Proof.
  intros Hrun. destruct (run_spec g start) as (st' & Hst' & _). rewrite Hst'.
  unfold run in Hst'.
  destruct (Nat.le_ge_cases fuel (bound g)) as [Hle|Hle].
  - by rewrite (loop_fuel _ _ _ _ _ Hle Hrun) in Hst'.
  - by rewrite (loop_fuel _ _ _ _ _ Hle Hst') in Hrun.
Qed.

End BfsFacts.

(** ** [reverse_graph] *)

Lemma edge_reverse_edges u vs r a b :
  edge (reverse_edges u vs r) a b ↔ edge r a b ∨ (a ∈ vs ∧ b = u).
Proof.
  unfold reverse_edges. revert r.
  induction vs as [|v vs IH]; intros r; simpl.
  - set_solver.
  - rewrite IH, edge_add, elem_of_cons. naive_solver.
Qed.

Lemma edge_reverse_items items r a b :
  edge (reverse_items items r) a b ↔
  edge r a b ∨ ∃ nbrs, (b, nbrs) ∈ items ∧ a ∈ nbrs.
Proof.
  unfold reverse_items. revert r.
  induction items as [|[u nbrs] items IH]; intros r; simpl.
  - split; [by left|]. intros [?|(? & []%elem_of_nil & _)]. done.
  - rewrite IH. unfold edge at 1. rewrite graph_get_setdefault.
    fold (edge (reverse_edges u (elements nbrs) r) a b).
    rewrite edge_reverse_edges, elem_of_elements. split.
    + intros [[?|[? ->]]|(X & ? & ?)]; [by left|right..].
      * exists nbrs. split; [by left | done].
      * exists X. split; [by right | done].
    + intros [?|(X & [[= -> ->]|?]%elem_of_cons & ?)]; [by left; left | |].
      * left; right. done.
      * right. by exists X.
Qed.

(** The reverse graph has exactly the inverted edges. *)
Lemma edge_reverse_graph g a b : edge (reverse_graph g) a b ↔ edge g b a.
Proof.
  unfold reverse_graph. rewrite edge_reverse_items. unfold edge at 1 2.
  rewrite graph_get_empty. unfold graph_get. split.
  - intros [[]%not_elem_of_empty|(X & HX%elem_of_map_to_list & ?)].
    by rewrite HX.
  - intros H. right. destruct (g !! b) as [X|] eqn:E; [|set_solver].
    exists X. split; [by apply elem_of_map_to_list | done].
Qed.

Lemma dom_reverse_edges u vs r :
  dom (reverse_edges u vs r) = list_to_set vs ∪ dom r.
Proof.
  unfold reverse_edges. revert r.
  induction vs as [|v vs IH]; intros r; simpl; [set_solver|].
  rewrite IH, dom_graph_add. set_solver.
Qed.

Lemma dom_reverse_items items r :
  dom (reverse_items items r) = dom r ∪ list_to_set items.*1 ∪ ⋃ items.*2.
Proof.
  unfold reverse_items. revert r.
  induction items as [|[u nbrs] items IH]; intros r; simpl; [set_solver|].
  rewrite IH, dom_graph_setdefault, dom_reverse_edges, list_to_set_elements_L.
  set_solver.
Qed.

(** Every key and every edge target of [g] is a key of the reverse graph. *)
Lemma dom_reverse_graph g : dom (reverse_graph g) = graph_nodes g.
Proof.
  unfold reverse_graph, graph_nodes. rewrite dom_reverse_items, dom_empty_L.
  pose proof (dom_alt (D := gset string) g) as ->%leibniz_equiv. set_solver.
Qed.

(** ** [to_dot] *)

Module DotFacts.
Import Dot.

Lemma emit_edges_app u vs lines :
  emit_edges u vs lines = lines ++ (edge_stmt u <$> vs).
Proof.
  unfold emit_edges. revert lines.
  induction vs as [|v vs IH]; intros lines; simpl.
  - by rewrite app_nil_r.
  - by rewrite IH, <- app_assoc.
Qed.

Lemma emit_items items nodes lines :
  foldl emit_item (nodes, lines) items =
  (nodes ∪ ⋃ items.*2,
   lines ++ ('(u, nbrs) ← items; edge_stmt u <$> elements nbrs)).
Proof.
  revert nodes lines.
  induction items as [|[u nbrs] items IH]; intros nodes lines; simpl.
  - rewrite app_nil_r. f_equal. set_solver.
  - rewrite IH, emit_edges_app, <- app_assoc. f_equal. set_solver.
Qed.

(** No member of the local [nodes] ever passes the test of the last loop. *)
Lemma standalone_false g n :
  n ∈ dom g ∪ ⋃ (map_to_list g).*2 → standalone g n = false.
Proof.
  unfold standalone. intros [Hn|Hn]%elem_of_union.
  - by rewrite bool_decide_true.
  - apply elem_of_union_list in Hn as (X & HX & Hn).
    apply andb_false_intro2, negb_false_iff, existsb_exists.
    exists X. split; [by apply list_elem_of_In | by apply bool_decide_eq_true].
Qed.

Lemma emit_nodes_nothing g ns lines :
  (∀ n, n ∈ ns → standalone g n = false) →
  foldl (emit_node g) lines ns = lines.
Proof.
  induction ns as [|n ns IH]; intros Hns; simpl; [done|].
  unfold emit_node at 2. rewrite Hns by by left.
  apply IH. intros. apply Hns. by right.
Qed.

Lemma edge_stmts g :
  ('(u, nbrs) ← map_to_list g; edge_stmt u <$> elements nbrs) =
  uncurry edge_stmt <$> edge_list g.
Proof.
  unfold edge_list. induction (map_to_list g) as [|[u nbrs] items IH]; [done|].
  rewrite !bind_cons, fmap_app, IH. f_equal.
  by rewrite <- list_fmap_compose.
Qed.

(** The lines of the rendering: the two header lines, one arrow
    statement for each element of [edge_list g], the closing brace. *)
Lemma to_dot_lines_eq g :
  to_dot_lines g = header ++ (uncurry edge_stmt <$> edge_list g) ++ ["}"%string].
Proof.
  unfold to_dot_lines. rewrite emit_items, emit_nodes_nothing.
  - by rewrite edge_stmts, <- app_assoc.
  - intros n Hn%elem_of_elements. by apply standalone_false.
Qed.

(** [edge_list g] lists every edge of [g] once. *)
Lemma elem_of_edge_list g u v : (u, v) ∈ edge_list g ↔ edge g u v.
Proof.
  unfold edge_list, edge, graph_get. rewrite list_elem_of_bind. split.
  - intros ([u' X] & Hin & HX%elem_of_map_to_list).
    apply list_elem_of_fmap in Hin as (v' & [= -> ->] & Hv%elem_of_elements).
    by rewrite HX.
  - intros Hv. destruct (g !! u) as [X|] eqn:E; [|set_solver].
    exists (u, X). split; [|by apply elem_of_map_to_list].
    apply list_elem_of_fmap. exists v. by rewrite elem_of_elements.
Qed.

Lemma NoDup_edge_list g : NoDup (edge_list g).
Proof.
  unfold edge_list. apply NoDup_bind.
  - intros [u1 X1] [u2 X2] [u v] H1 H2 Hin1 Hin2.
    apply list_elem_of_fmap in Hin1 as (? & [= -> ->] & _).
    apply list_elem_of_fmap in Hin2 as (? & [= -> _] & _).
    apply elem_of_map_to_list in H1, H2. congruence.
  - intros [u X] _. apply NoDup_fmap_2; [|apply NoDup_elements].
    by intros ?? [= ->].
  - apply NoDup_map_to_list.
Qed.

End DotFacts.

(** * The statements of the design document *)

Local Open Scope string_scope.

(** ** The sample inputs *)

Lemma load_local_description :
  load_test_graph local_description = Ok local_graph.
Proof. vm_compute. reflexivity. Qed.

Lemma flt_lower_nonempty (f : string) :
  f ≠ EmptyString → Py.truthy (flt_lower f) = true.
Proof. unfold flt_lower. rewrite RegistryFacts.truthy_lower. by destruct f. Qed.

(** ** Remote builder: fetch failures *)

(** When the first request for a node that the filter lets through ends
    in one of the errors that [http_get_json] handles, the exit raised by
    [fail] leaves the builder: no graph is returned. *)
Lemma handled_fetch_error_exits urlopen fuel root flt :
  flt_match (flt_lower flt) root = false →
  urlopen (Registry.CRATES_API ++ "/" ++ root) ∈
    [Registry.HTTPError; Registry.URLError; Registry.JSONDecodeError] →
  build_graph_cratesio urlopen (S fuel) root flt = Some (Raise (SystemExit 2)).
Proof.
  intros Hm Hurl. unfold build_graph_cratesio, Registry.run.
  cbn [Registry.dfs]. rewrite Hm. cbn [Registry.init Registry.visited].
  rewrite bool_decide_false by set_solver.
  unfold Registry.crates_latest_version, Registry.http_get_json.
  repeat (apply elem_of_cons in Hurl as [->|Hurl]; [done|]).
  by apply elem_of_nil in Hurl.
Qed.

(** A crate without any version ends the process in the same way. *)
Lemma missing_version_exits urlopen fuel root flt deps :
  flt_match (flt_lower flt) root = false →
  urlopen (Registry.CRATES_API ++ "/" ++ root) =
    Registry.Json (Registry.Document None [] deps) →
  build_graph_cratesio urlopen (S fuel) root flt = Some (Raise (SystemExit 2)).
Proof.
  intros Hm Hurl. unfold build_graph_cratesio, Registry.run.
  cbn [Registry.dfs]. rewrite Hm. cbn [Registry.init Registry.visited].
  rewrite bool_decide_false by set_solver.
  unfold Registry.crates_latest_version, Registry.http_get_json.
  by rewrite Hurl.
Qed.

(** Only an exception that [http_get_json] does not turn into an exit is
    swallowed: the node is then a leaf. *)
Lemma other_exception_swallowed urlopen fuel root flt :
  flt_match (flt_lower flt) root = false →
  urlopen (Registry.CRATES_API ++ "/" ++ root) = Registry.OtherError →
  build_graph_cratesio urlopen (S fuel) root flt = Some (Ok ∅).
Proof.
  intros Hm Hurl. unfold build_graph_cratesio, Registry.run.
  cbn [Registry.dfs]. rewrite Hm. cbn [Registry.init Registry.visited].
  rewrite bool_decide_false by set_solver.
  unfold Registry.crates_latest_version, Registry.http_get_json.
  by rewrite Hurl.
Qed.

(** C1.  The claim: a failed fetch (registry unreachable, bad JSON,
    missing version) is swallowed per node and the builder returns a
    graph.  The code: with the registry unreachable, building from the
    root [serde] without a filter returns no graph; the [SystemExit(2)]
    raised by [fail] inside [http_get_json] passes the [except Exception]
    of the builder, whatever the call-stack depth allowed.  The same
    happens when the root [a] is fetched and the failing node is its
    dependency [b]: the whole traversal is abandoned. *)
Theorem build_unreachable_registry_exits (fuel : nat) :
  build_graph_cratesio unreachable_registry (S fuel) "serde" EmptyString
  = Some (Raise (SystemExit 2)) ∧
  build_graph_cratesio partial_registry (S (S fuel)) "a" EmptyString
  = Some (Raise (SystemExit 2)).
Proof. split; reflexivity. Qed.

(** The builder visits exactly the nodes reached from the root through
    recorded dependencies, and records exactly the dependencies of those
    nodes that the filter lets through. *)
Lemma build_visited_spec urlopen fuel root flt g u :
  build_graph_cratesio urlopen fuel root flt = Some (Ok g) →
  u ∈ build_visited urlopen fuel root flt ↔
  RegistrySpec.reg_path urlopen (flt_lower flt) root u.
Proof.
  unfold build_graph_cratesio, build_visited.
  destruct (Registry.run urlopen fuel root flt) as [[st|e]|] eqn:Hrun; [|done..].
  intros _. apply (RegistryFacts.build_run_visited _ _ _ _ _ Hrun).
Qed.

Lemma build_edges_spec urlopen fuel root flt g u v :
  build_graph_cratesio urlopen fuel root flt = Some (Ok g) →
  edge g u v ↔
  RegistrySpec.reg_path urlopen (flt_lower flt) root u ∧
  v ∈ RegistrySpec.dep_names urlopen (flt_lower flt) u.
Proof.
  unfold build_graph_cratesio.
  destruct (Registry.run urlopen fuel root flt) as [[st|e]|] eqn:Hrun; [|done..].
  intros [= <-].
  pose proof (RegistryFacts.build_run_result _ _ _ _ _ Hrun u) as (_ & Hget & _).
  unfold edge. rewrite Hget, <- (RegistryFacts.build_run_visited _ _ _ _ _ Hrun).
  case_decide; set_solver.
Qed.

(** A deeper call stack never changes the outcome, and when the registry
    offers finitely many names the builder ends. *)
Lemma build_any_depth urlopen root flt (n m : nat) r :
  (n ≤ m)%nat →
  build_graph_cratesio urlopen n root flt = Some r →
  build_graph_cratesio urlopen m root flt = Some r.
Proof.
  unfold build_graph_cratesio. intros Hle Hn.
  destruct (Registry.run urlopen n root flt) as [r0|] eqn:Hrun; [|done].
  by rewrite (RegistryFacts.build_run_fuel _ _ _ _ _ _ Hle Hrun).
Qed.

Lemma build_ends urlopen U root flt fuel :
  RegistrySpec.universe urlopen U → root ∈ U → (size U < fuel)%nat →
  is_Some (build_graph_cratesio urlopen fuel root flt).
Proof.
  intros HU Hroot Hfuel. unfold build_graph_cratesio.
  destruct (RegistryFacts.build_run_total urlopen U root flt HU Hroot fuel Hfuel)
    as [[st|e] ->]; eauto.
Qed.

(** ** Filter-pruned traversal *)

(** C2, as stated, fails: on the graph [A: C], started at [A] with the
    filter [a], the start node matches the filter, is not visited, and
    its dependency [C], which does not match, is not recorded. *)
Lemma prune_matching_start_counterexample :
  "a" ≠ EmptyString ∧
  Py.contains (Py.lower "a") (Py.lower "A") = true ∧
  ¬ start_visited_unconditionally single_edge_graph "A" "a".
Proof.
  split_and!; [done | done |].
  assert (prune_visited single_edge_graph "A" "a" = ∅) as Hrun
    by (vm_compute; reflexivity).
  intros [Hvis _]. rewrite Hrun in Hvis. by apply elem_of_empty in Hvis.
Qed.

(** C2, amended.  When the start node matches a non-empty filter,
    [dfs_prune_by_filter] does not visit it: the filter test of the inner
    [dfs] applies to the initiating call as to any other, the traversal
    ends at once, nothing is visited and the returned graph is empty. *)
Theorem prune_matching_start_empty (g : Graph) (s f : string) :
  f ≠ EmptyString →
  Py.contains (Py.lower f) (Py.lower s) = true →
  Prune.run g s f = Some Prune.init ∧
  prune_visited g s f = ∅ ∧
  dfs_prune_by_filter g s f = ∅.
Proof.
  intros Hf Hs.
  assert (Prune.run g s f = Some Prune.init) as Hrun.
  { unfold Prune.run, Prune.depth.
    cbn [Prune.dfs Prune.init Prune.visited].
    rewrite bool_decide_false by set_solver.
    unfold flt_match. rewrite flt_lower_nonempty by done.
    unfold flt_lower. by rewrite Hs. }
  unfold prune_visited, dfs_prune_by_filter. by rewrite Hrun.
Qed.

(** The graph [A: C], started at [A] with the filter [a]. *)
Lemma prune_matching_start_empty_witness :
  "a" ≠ EmptyString ∧
  Py.contains (Py.lower "a") (Py.lower "A") = true ∧
  Prune.run single_edge_graph "A" "a" = Some Prune.init ∧
  prune_visited single_edge_graph "A" "a" = ∅ ∧
  dfs_prune_by_filter single_edge_graph "A" "a" = ∅.
Proof.
  split; [done|]. split; [reflexivity|].
  apply (prune_matching_start_empty single_edge_graph "A" "a"); [done | reflexivity].
Defined.

(** The traversal visits exactly the nodes that are reached from the
    start along a path that the filter lets through, and records exactly
    the edges from those nodes to dependencies that the filter lets
    through. *)
Lemma prune_visited_spec (g : Graph) (s f u : string) :
  u ∈ prune_visited g s f ↔ clean_path g (flt_lower f) s u.
Proof.
  pose proof (PruneFacts.prune_run_total g s f) as [st Hst].
  unfold prune_visited. rewrite Hst.
  by apply PruneFacts.prune_run_visited.
Qed.

Lemma prune_edges_spec (g : Graph) (s f u v : string) :
  edge (dfs_prune_by_filter g s f) u v ↔
  clean_path g (flt_lower f) s u ∧ edge g u v ∧
  flt_match (flt_lower f) v = false.
Proof.
  pose proof (PruneFacts.prune_run_total g s f) as [st Hst].
  pose proof (PruneFacts.prune_run_result g s f st Hst u) as [Hget _].
  unfold dfs_prune_by_filter. rewrite Hst. unfold edge at 1. rewrite Hget.
  rewrite <- (PruneFacts.prune_run_visited g s f st Hst).
  case_decide; rewrite ?elem_of_retained; set_solver.
Qed.

(** Any call-stack depth at which the traversal finishes gives the same
    graph. *)
Lemma prune_any_depth (g : Graph) (s f : string) (fuel : nat) st :
  Prune.dfs g (flt_lower f) fuel s Prune.init = Some st →
  dfs_prune_by_filter g s f = Prune.out st.
Proof.
  intros Hrun%PruneFacts.prune_run_any_fuel.
  unfold dfs_prune_by_filter. by rewrite Hrun.
Qed.

(** C10.  The output of [dfs_prune_by_filter] is a sound subgraph of its
    input: the traversal returns, every edge of the output is an edge of
    the input, and every key of the output is reached from the start
    along a path of the input none of whose nodes matches the filter. *)
Theorem prune_sound_subgraph (g : Graph) (s f : string) :
  is_Some (Prune.run g s f) ∧
  (∀ u v, edge (dfs_prune_by_filter g s f) u v → edge g u v) ∧
  (∀ u, u ∈ dom (dfs_prune_by_filter g s f) →
        clean_path g (flt_lower f) s u).
Proof.
  pose proof (PruneFacts.prune_run_total g s f) as [st Hst].
  pose proof (PruneFacts.prune_run_result g s f st Hst) as Hres.
  pose proof (PruneFacts.prune_run_visited g s f st Hst) as Hvis.
  unfold dfs_prune_by_filter. rewrite Hst. split_and!; [eauto | |].
  - intros u v. unfold edge at 1. destruct (Hres u) as (-> & _).
    case_decide; [|set_solver]. rewrite elem_of_retained. tauto.
  - intros u Hu. destruct (Hres u) as (_ & Hk). apply Hvis. by apply Hk.
Qed.

(** ** Key presence *)

(** C3, as stated, fails: pruning [A: B] / [B:] from [A] without a filter
    visits [B] and records the edge [A -> B], but [B] is not a key of the
    output. *)
Lemma key_presence_counterexample :
  ¬ visited_are_keys (prune_visited leaf_graph "A" EmptyString)
                     (dfs_prune_by_filter leaf_graph "A" EmptyString) ∧
  ¬ key_presence {[ "A" ]} (dfs_prune_by_filter leaf_graph "A" EmptyString).
Proof.
  assert (dfs_prune_by_filter leaf_graph "A" EmptyString = {[ "A" := {[ "B" ]} ]})
    as Hout by (vm_compute; reflexivity).
  assert (prune_visited leaf_graph "A" EmptyString = {[ "A"; "B" ]})
    as Hvis by (vm_compute; reflexivity).
  rewrite Hout, Hvis.
  assert ("B" ∉ dom ({[ "A" := {[ "B" ]} ]} : Graph)) as HB.
  { rewrite dom_singleton_L. set_solver. }
  split; intros H; apply HB, H.
  - set_solver.
  - right; right. exists "A". unfold edge, graph_get.
    rewrite lookup_singleton_eq. set_solver.
Qed.

(** C3, amended.  In the output of [build_graph_cratesio] and of
    [dfs_prune_by_filter] a node is a key exactly when it was visited and
    at least one of its dependencies was recorded, that is, passed the
    filter; the set under a key is never empty.  Leaves, nodes whose
    fetch failed and edge targets that were not expanded are not keys.
    The output of [reverse_graph] does have every key and every edge
    endpoint of its input as a key. *)
Theorem traversal_keys (urlopen : string → Registry.reply) (fuel : nat)
        (root flt : string) (built : Graph) (g : Graph) (s f : string) :
  build_graph_cratesio urlopen fuel root flt = Some (Ok built) →
  (∀ u, u ∈ dom built ↔
        u ∈ build_visited urlopen fuel root flt ∧
        RegistrySpec.dep_names urlopen (flt_lower flt) u ≠ ∅) ∧
  (∀ u, u ∈ dom built → graph_get built u ≠ ∅) ∧
  (∀ u, u ∈ dom (dfs_prune_by_filter g s f) ↔
        u ∈ prune_visited g s f ∧
        ∃ v, edge g u v ∧ flt_match (flt_lower f) v = false) ∧
  (∀ u, u ∈ dom (dfs_prune_by_filter g s f) →
        graph_get (dfs_prune_by_filter g s f) u ≠ ∅) ∧
  key_presence (dom g) (reverse_graph g) ∧
  (∀ u v, edge g u v → u ∈ dom (reverse_graph g) ∧ v ∈ dom (reverse_graph g)).
Proof.
  intros Hbuild. unfold build_graph_cratesio, build_visited in *.
  destruct (Registry.run urlopen fuel root flt) as [[st|e]|] eqn:Hrun; [|done..].
  injection Hbuild as <-.
  pose proof (RegistryFacts.build_run_result _ _ _ _ _ Hrun) as Hb.
  pose proof (PruneFacts.prune_run_total g s f) as [pst Hpst].
  pose proof (PruneFacts.prune_run_result g s f pst Hpst) as Hp.
  unfold dfs_prune_by_filter, prune_visited. rewrite Hpst.
  assert (∀ u, retained g (flt_lower f) u ≠ ∅ ↔
               ∃ v, edge g u v ∧ flt_match (flt_lower f) v = false) as Hret.
  { intros u. split.
    - intros (v & Hv)%set_choose_L. exists v. by apply elem_of_retained.
    - intros (v & Hv) He. apply elem_of_retained in Hv. set_solver. }
  split_and!.
  - intros u. by destruct (Hb u) as (_ & _ & ?).
  - intros u Hu. destruct (Hb u) as (_ & -> & Hk).
    apply Hk in Hu as [? ?]. by rewrite decide_True.
  - intros u. destruct (Hp u) as (_ & ->). by rewrite Hret.
  - intros u Hu. destruct (Hp u) as (-> & Hk).
    apply Hk in Hu as [? ?]. by rewrite decide_True.
  - intros u Hu. rewrite dom_reverse_graph.
    destruct Hu as [Hu|[[w Hw]|[w Hw]]].
    + by apply elem_of_union_l.
    + rewrite edge_reverse_graph in Hw. exact (edge_graph_nodes _ _ _ Hw).
    + rewrite edge_reverse_graph in Hw. apply elem_of_union_l.
      exact (edge_is_key _ _ _ Hw).
  - intros u v Huv. rewrite dom_reverse_graph. split.
    + apply elem_of_union_l. exact (edge_is_key _ _ _ Huv).
    + exact (edge_graph_nodes _ _ _ Huv).
Qed.

(** The sample registry built from [a] without a filter, and the graph
    [A: B] / [B:] pruned from [A]. *)
Lemma traversal_keys_witness :
  let built : Graph := {[ "a" := {[ "b"; "c" ]}; "b" := {[ "a"; "c" ]} ]} in
  build_graph_cratesio sample_registry 5 "a" EmptyString = Some (Ok built) ∧
  (∀ u, u ∈ dom built ↔
        u ∈ build_visited sample_registry 5 "a" EmptyString ∧
        RegistrySpec.dep_names sample_registry (flt_lower EmptyString) u ≠ ∅) ∧
  (∀ u, u ∈ dom built → graph_get built u ≠ ∅) ∧
  (∀ u, u ∈ dom (dfs_prune_by_filter leaf_graph "A" EmptyString) ↔
        u ∈ prune_visited leaf_graph "A" EmptyString ∧
        ∃ v, edge leaf_graph u v ∧ flt_match (flt_lower EmptyString) v = false) ∧
  (∀ u, u ∈ dom (dfs_prune_by_filter leaf_graph "A" EmptyString) →
        graph_get (dfs_prune_by_filter leaf_graph "A" EmptyString) u ≠ ∅) ∧
  key_presence (dom leaf_graph) (reverse_graph leaf_graph) ∧
  (∀ u v, edge leaf_graph u v →
          u ∈ dom (reverse_graph leaf_graph) ∧ v ∈ dom (reverse_graph leaf_graph)).
Proof.
  intros built.
  assert (build_graph_cratesio sample_registry 5 "a" EmptyString
          = Some (Ok built)) as Hbuild by (vm_compute; reflexivity).
  split; [exact Hbuild|].
  exact (traversal_keys sample_registry 5 "a" EmptyString built
                        leaf_graph "A" EmptyString Hbuild).
Defined.

(** ** Remote builder: the filter *)

(** C8.  With a non-empty filter, a node whose lowered name contains the
    lowered filter never appears in a graph returned by
    [build_graph_cratesio]: it is not visited, it is not a key and it is
    not the target of an edge. *)
Theorem build_excludes_filtered (urlopen : string → Registry.reply)
        (fuel : nat) (root f : string) (g : Graph) (x : string) :
  f ≠ EmptyString →
  Py.contains (Py.lower f) (Py.lower x) = true →
  build_graph_cratesio urlopen fuel root f = Some (Ok g) →
  (x ∉ build_visited urlopen fuel root f) ∧
  (x ∉ dom g) ∧
  (∀ u, ¬ edge g u x).
Proof.
  intros Hf Hx Hbuild. unfold build_graph_cratesio, build_visited in *.
  destruct (Registry.run urlopen fuel root f) as [[st|e]|] eqn:Hrun; [|done..].
  injection Hbuild as <-.
  pose proof (RegistryFacts.build_run_result _ _ _ _ _ Hrun) as Hres.
  assert (flt_match (flt_lower f) x = true) as Hm.
  { unfold flt_match. rewrite flt_lower_nonempty by done.
    unfold flt_lower. by rewrite Hx. }
  assert (x ∉ Registry.visited st) as Hvis.
  { intros Hin. destruct (Hres x) as (Hu & _). rewrite Hu in Hm; done. }
  split_and!; [done | |].
  - intros Hin. destruct (Hres x) as (_ & _ & Hk). by apply Hk in Hin as [? _].
  - intros u. unfold edge. destruct (Hres u) as (_ & -> & _).
    case_decide; [|set_solver].
    intros Hin%RegistryFacts.dep_names_unmatched. congruence.
Qed.

(** The sample registry built from [a] with the filter [B]: the crate
    [b] is left out. *)
Lemma build_excludes_filtered_witness :
  "B" ≠ EmptyString ∧
  Py.contains (Py.lower "B") (Py.lower "b") = true ∧
  build_graph_cratesio sample_registry 5 "a" "B"
    = Some (Ok {[ "a" := {[ "c" ]} ]}) ∧
  ("b" ∉ build_visited sample_registry 5 "a" "B") ∧
  ("b" ∉ dom ({[ "a" := {[ "c" ]} ]} : Graph)) ∧
  (∀ u, ¬ edge {[ "a" := {[ "c" ]} ]} u "b").
Proof.
  assert (build_graph_cratesio sample_registry 5 "a" "B"
          = Some (Ok {[ "a" := {[ "c" ]} ]})) as Hbuild
    by (vm_compute; reflexivity).
  split; [done|]. split; [reflexivity|]. split; [exact Hbuild|].
  apply (build_excludes_filtered sample_registry 5 "a" "B");
    [done | reflexivity | exact Hbuild].
Defined.

(** ** Reverse graph and reachability *)

(** C9.  Reversing a graph twice gives back exactly its edges. *)
Theorem reverse_reverse_edges (g : Graph) (u v : string) :
  edge (reverse_graph (reverse_graph g)) u v ↔ edge g u v.
Proof. by rewrite !edge_reverse_graph. Qed.

(** The result of [reachable] is the set of targets of non-empty paths. *)
Lemma elem_of_reachable (g : Graph) (x v : string) :
  v ∈ reachable g x ↔ tc (edge g) x v.
Proof.
  destruct (BfsFacts.run_spec g x) as (st & Hrun & Hinv & Hdq).
  unfold reachable. rewrite Hrun. split.
  - by apply Hinv.
  - by apply BfsFacts.inv_complete.
Qed.

(** Any number of iterations at which the loop finishes gives the same
    set. *)
Lemma reachable_any_fuel (g : Graph) (x : string) (fuel : nat) st :
  Bfs.loop g fuel (Bfs.init x) = Some st → reachable g x = Bfs.seen st.
Proof.
  intros Hrun%BfsFacts.bfs_run_any_fuel. unfold reachable. by rewrite Hrun.
Qed.

(** C7.  [reachable(g, x)] returns, and it returns exactly the nodes
    that are reached from [x] along one or more edges of [g]; so [x]
    itself is in the result exactly when a cycle leads back to it. *)
Theorem reachable_spec (g : Graph) (x : string) :
  is_Some (Bfs.run g x) ∧
  (∀ v, v ∈ reachable g x ↔ tc (edge g) x v) ∧
  (x ∈ reachable g x ↔ tc (edge g) x x).
Proof.
  destruct (BfsFacts.run_spec g x) as (st & Hrun & _).
  split_and!; [by rewrite Hrun | apply elem_of_reachable..].
Qed.

(** C5, as stated, fails: on the cyclic graph [A: B] / [B: A] the start
    node [A] is put on the deque twice, first by [deque([start])] and
    again when the edge [B -> A] is followed. *)
Lemma enqueued_once_counterexample :
  enqueued cyclic_graph "A" = ["A"; "B"; "A"] ∧
  ¬ NoDup (enqueued cyclic_graph "A").
Proof.
  assert (enqueued cyclic_graph "A" = ["A"; "B"; "A"]) as ->
    by (vm_compute; reflexivity).
  split; [done|]. intros Hnd. apply NoDup_cons in Hnd as [Hnd _].
  apply Hnd. set_solver.
Qed.

(** C5, amended.  For every graph and start node the loop of
    [reachable] ends, and after the initial [deque([start])] every node
    is put on the deque at most once, namely exactly the nodes of the
    result: a node other than the start is enqueued at most once, the
    start at most twice (the second time when a cycle leads back to it). *)
Theorem reachable_enqueues (g : Graph) (start : string) :
  is_Some (Bfs.run g start) ∧
  ∃ l, enqueued g start = start :: l ∧ NoDup l ∧
       (∀ v, v ∈ l ↔ v ∈ reachable g start) ∧
       (start ∈ l ↔ tc (edge g) start start).
Proof.
  destruct (BfsFacts.run_spec g start) as (st & Hrun & Hinv & Hdq).
  unfold enqueued, reachable. rewrite Hrun. split; [eauto|].
  pose proof (λ v, BfsFacts.inv_complete g start st v Hinv Hdq) as Hcomplete.
  destruct Hinv as [(l & El & Nl & Hl) Hsound _ _].
  exists l. split_and!; [done..|].
  rewrite Hl. split; [apply Hsound | apply Hcomplete].
Qed.

(** ** Reverse-dependency query *)

Lemma edge_rev_node r D p g_rev v a b :
  edge (rev_node r D p g_rev v) a b ↔
  edge g_rev a b ∨ (a = v ∧ edge r v b ∧ (b ∈ D ∨ b = p)).
Proof.
  assert (∀ us g0, edge (foldl (rev_keep D p v) g0 us) a b ↔
                   edge g0 a b ∨ (a = v ∧ b ∈ us ∧ (b ∈ D ∨ b = p))) as Hfold.
  { intros us. induction us as [|u us IH]; intros g0; simpl.
    - rewrite elem_of_nil. tauto.
    - rewrite IH, elem_of_cons. unfold rev_keep at 1.
      destruct (_ || _) eqn:Hk.
      + rewrite edge_add.
        apply orb_true_iff in Hk as [Hk%bool_decide_eq_true|Hk%String.eqb_eq];
          naive_solver.
      + apply orb_false_iff in Hk as [Hk1%bool_decide_eq_false Hk2%String.eqb_neq].
        naive_solver. }
  unfold rev_node. rewrite Hfold, elem_of_elements. done.
Qed.

(** The reconstructed graph keeps, for each [v] of the reachable set, the
    edges [v -> u] of the reverse graph with [u] in the set or equal to
    the package. *)
Lemma edge_reverse_query full_g package a b :
  edge (reverse_query full_g package).2 a b ↔
  a ∈ (reverse_query full_g package).1 ∧
  edge (reverse_graph full_g) a b ∧
  (b ∈ (reverse_query full_g package).1 ∨ b = package).
Proof.
  unfold reverse_query. simpl.
  set (r := reverse_graph full_g). set (D := reachable r package).
  rewrite <- (elem_of_elements D a).
  assert (∀ vs g0, edge (foldl (rev_node r D package) g0 vs) a b ↔
                   edge g0 a b ∨
                   (a ∈ vs ∧ edge r a b ∧ (b ∈ D ∨ b = package))) as Hfold.
  { intros vs. induction vs as [|v vs IH]; intros g0; simpl.
    - set_solver.
    - rewrite IH, edge_rev_node, elem_of_cons. naive_solver. }
  rewrite Hfold. unfold edge at 1. rewrite graph_get_empty. set_solver.
Qed.

(** For a node of the reachable set the test of the reconstruction is
    always passed: who depends on a dependent of the package depends on
    the package.  The reconstructed graph is the reverse graph restricted
    to the edges that start in the reachable set. *)
Lemma edge_reverse_query_all full_g package a b :
  edge (reverse_query full_g package).2 a b ↔
  a ∈ (reverse_query full_g package).1 ∧ edge (reverse_graph full_g) a b.
Proof.
  rewrite edge_reverse_query. unfold reverse_query. simpl.
  split; [tauto|]. intros [Ha Hab]. split_and!; [done..|]. left.
  apply elem_of_reachable. apply elem_of_reachable in Ha.
  by eapply tc_r.
Qed.

(** C4.  The claim: on the graph of [A: B C] / [B: C] / [C:] the query
    for [C] computes the reachable set [{A, B}] and reconstructs the
    edges [B -> C], [A -> C] and [A -> B], those between the dependents
    and the target.  The code: the reachable set is as claimed, but the
    loop of [main] reads the reverse graph [r], and only at the
    dependents.  There the test [u in depends_on_me or u == ns.package],
    which is written for the edges towards the package, has nothing to
    select: the reconstructed graph is [{B: {A}}].  It has none of the
    three edges, in particular no edge at the target.  The same loop run
    over [full_g] in place of [r] gives the three edges of the claim. *)
Theorem reverse_query_drops_target_edges :
  load_test_graph local_description = Ok local_graph ∧
  (reverse_query local_graph "C").1 = {[ "A"; "B" ]} ∧
  (reverse_query local_graph "C").2 = {[ "B" := {[ "A" ]} ]} ∧
  ¬ edge (reverse_query local_graph "C").2 "B" "C" ∧
  ¬ edge (reverse_query local_graph "C").2 "A" "C" ∧
  ¬ edge (reverse_query local_graph "C").2 "A" "B" ∧
  (∀ u v, edge (reverse_query local_graph "C").2 u v → u ≠ "C" ∧ v ≠ "C") ∧
  foldl (rev_node local_graph {[ "A"; "B" ]} "C") ∅
        (elements ({[ "A"; "B" ]} : gset string))
    = {[ "A" := {[ "B"; "C" ]}; "B" := {[ "C" ]} ]}.
Proof.
  assert ((reverse_query local_graph "C").2 = {[ "B" := {[ "A" ]} ]}) as Hg
    by (vm_compute; reflexivity).
  split_and!; [vm_compute; reflexivity | vm_compute; reflexivity | done | ..].
  - rewrite Hg. intros H. by vm_compute in H.
  - rewrite Hg. intros H. by vm_compute in H.
  - rewrite Hg. intros H. by vm_compute in H.
  - intros u v. rewrite Hg. clear Hg. unfold edge, graph_get.
    destruct (decide (u = "B")) as [->|Hne].
    + rewrite lookup_singleton_eq. simpl. rewrite elem_of_singleton.
      intros ->. done.
    + rewrite lookup_singleton_ne by done. simpl. by rewrite elem_of_empty.
  - vm_compute. reflexivity.
Qed.

(** ** DOT rendering *)

(** The rendering has one arrow statement for each edge, and no other
    statement: the last loop of [to_dot] never appends anything. *)
Lemma to_dot_statements (g : Graph) :
  ∃ edges,
    Dot.to_dot_lines g =
      (Dot.header ++ (uncurry Dot.edge_stmt <$> edges) ++ ["}"])%list ∧
    NoDup edges ∧ ∀ u v, (u, v) ∈ edges ↔ edge g u v.
Proof.
  exists (edge_list g). split_and!.
  - apply DotFacts.to_dot_lines_eq.
  - apply DotFacts.NoDup_edge_list.
  - apply DotFacts.elem_of_edge_list.
Qed.

(** C6.  The claim: every isolated node, a key without outgoing and
    incoming edges, is declared by a statement of its own.  The code: for
    the graph with the single key [A] and no edge, the rendering consists
    of the two header lines and the closing brace; the statement for [A]
    is missing. *)
Theorem to_dot_isolated_node_missing :
  "A" ∈ dom isolated_graph ∧
  (∀ v, ¬ edge isolated_graph "A" v ∧ ¬ edge isolated_graph v "A") ∧
  Dot.to_dot_lines isolated_graph =
    ["digraph deps {"; "  rankdir=LR; node [shape=box, fontsize=10];"; "}"] ∧
  to_dot isolated_graph =
    "digraph deps {" ++ Dot.newline ++
    "  rankdir=LR; node [shape=box, fontsize=10];" ++ Dot.newline ++ "}" ∧
  (Dot.node_stmt "A" ∉ Dot.to_dot_lines isolated_graph).
Proof.
  assert (Dot.to_dot_lines isolated_graph =
          ["digraph deps {"; "  rankdir=LR; node [shape=box, fontsize=10];"; "}"])
    as Hlines by (vm_compute; reflexivity).
  split_and!.
  - unfold isolated_graph. rewrite dom_singleton_L. set_solver.
  - intros v. unfold edge, graph_get, isolated_graph.
    destruct (decide (v = "A")) as [->|Hne].
    + rewrite lookup_singleton_eq. set_solver.
    + rewrite lookup_singleton_eq, lookup_singleton_ne by done. set_solver.
  - done.
  - unfold to_dot. by rewrite Hlines.
  - rewrite Hlines. intros Hin.
    repeat (apply elem_of_cons in Hin as [Hin|Hin]; [by vm_compute in Hin|]).
    by apply elem_of_nil in Hin.
Qed.

(** * Further properties of the code *)

(** ** Filter-pruned traversal *)

Lemma clean_path_unmatched g flt_low s u :
  clean_path g flt_low s u → flt_match flt_low u = false.
Proof. by destruct 1. Qed.

(** Without a filter a clean path is any path. *)
Lemma clean_path_no_filter g s u :
  clean_path g EmptyString s u ↔ rtc (edge g) s u.
Proof.
  split.
  - induction 1 as [|v w _ IH Hvw _]; [done|]. by eapply rtc_r.
  - revert u. apply rtc_ind_r.
    + by apply clean_start.
    + intros v w _ Hvw IH. by eapply clean_step.
Qed.

(** A set under a key of the pruned graph is not empty. *)
Lemma prune_lookup_nonempty g s f u X :
  dfs_prune_by_filter g s f !! u = Some X → X ≠ ∅.
Proof.
  pose proof (PruneFacts.prune_run_total g s f) as [st Hst].
  destruct (PruneFacts.prune_run_post g s f st Hst) as [[[_ I2 _ _] _ _ _ _] _].
  unfold dfs_prune_by_filter. rewrite Hst. apply I2.
Qed.

(** A graph without empty sets under its keys is determined by its edges. *)
Lemma graph_eq_edges (g1 g2 : Graph) :
  (∀ u X, g1 !! u = Some X → X ≠ ∅) →
  (∀ u X, g2 !! u = Some X → X ≠ ∅) →
  (∀ u v, edge g1 u v ↔ edge g2 u v) →
  g1 = g2.
Proof.
  intros H1 H2 He. apply map_eq. intros u.
  assert (graph_get g1 u = graph_get g2 u) as Hget.
  { apply set_eq. intros v. apply He. }
  unfold graph_get in Hget.
  destruct (g1 !! u) as [X1|] eqn:E1, (g2 !! u) as [X2|] eqn:E2; simpl in *.
  - by rewrite Hget.
  - by apply H1 in E1.
  - by apply H2 in E2.
  - done.
Qed.

(** X1.  [dfs_prune_by_filter] records exactly the induced subgraph: an
    edge [u -> v] is in the output exactly when it is an edge of the
    input, [u] is reached from the start along a path none of whose nodes
    matches the filter, and [v] does not match the filter; the visited
    nodes are exactly the nodes reached in that way. *)
Theorem prune_induced_subgraph (g : Graph) (s f : string) :
  (∀ u, u ∈ prune_visited g s f ↔ clean_path g (flt_lower f) s u) ∧
  (∀ u v, edge (dfs_prune_by_filter g s f) u v ↔
          clean_path g (flt_lower f) s u ∧ edge g u v ∧
          flt_match (flt_lower f) v = false).
Proof.
  split; [intros u; apply prune_visited_spec | intros u v; apply prune_edges_spec].
Qed.

(** X2.  With an empty filter [dfs_prune_by_filter] returns the part of
    the graph that is reachable from the start: the edges of the input
    whose source is the start node or is reached from it. *)
Theorem prune_no_filter (g : Graph) (s u v : string) :
  edge (dfs_prune_by_filter g s EmptyString) u v ↔
  rtc (edge g) s u ∧ edge g u v.
Proof.
  rewrite prune_edges_spec. change (flt_lower EmptyString) with EmptyString.
  rewrite clean_path_no_filter. unfold flt_match. simpl. tauto.
Qed.

(** X3.  Pruning is idempotent: pruning the pruned graph again, from the
    same start and with the same filter, changes nothing. *)
Theorem prune_idempotent (g : Graph) (s f : string) :
  dfs_prune_by_filter (dfs_prune_by_filter g s f) s f
  = dfs_prune_by_filter g s f.
Proof.
  apply graph_eq_edges; [apply prune_lookup_nonempty..|].
  set (out := dfs_prune_by_filter g s f).
  assert (∀ u, clean_path out (flt_lower f) s u ↔
               clean_path g (flt_lower f) s u) as Hpath.
  { intros u. split.
    - induction 1 as [|v w _ IH Hvw Hw]; [by apply clean_start|].
      eapply clean_step; [exact IH | | done].
      by apply prune_edges_spec in Hvw as (_ & ? & _).
    - induction 1 as [|v w Hv IH Hvw Hw]; [by apply clean_start|].
      eapply clean_step; [exact IH | | done].
      by apply prune_edges_spec. }
  intros u v. rewrite prune_edges_spec, Hpath. fold out.
  split; [tauto|]. intros He. split_and!; [|done|].
  - by apply prune_edges_spec in He as (? & _).
  - by apply prune_edges_spec in He as (_ & _ & ?).
Qed.

(** X4.  A node that matches a non-empty filter does not occur in the
    output of [dfs_prune_by_filter]: it is not visited, it is not a key,
    and no recorded edge starts or ends at it. *)
Theorem prune_excludes_filtered (g : Graph) (s f x : string) :
  f ≠ EmptyString →
  Py.contains (Py.lower f) (Py.lower x) = true →
  (x ∉ prune_visited g s f) ∧
  (x ∉ dom (dfs_prune_by_filter g s f)) ∧
  (∀ u, ¬ edge (dfs_prune_by_filter g s f) u x) ∧
  (∀ v, ¬ edge (dfs_prune_by_filter g s f) x v).
Proof.
  intros Hf Hx.
  assert (flt_match (flt_lower f) x = true) as Hm.
  { unfold flt_match. rewrite flt_lower_nonempty by done.
    unfold flt_lower. by rewrite Hx. }
  assert (¬ clean_path g (flt_lower f) s x) as Hclean.
  { intros H%clean_path_unmatched. congruence. }
  assert (∀ v, ¬ edge (dfs_prune_by_filter g s f) x v) as Hout.
  { intros v (? & _)%prune_edges_spec. done. }
  split_and!; [| | |done].
  - by rewrite prune_visited_spec.
  - intros Hk. apply elem_of_dom in Hk as [X HX].
    pose proof (prune_lookup_nonempty _ _ _ _ _ HX) as (v & Hv)%set_choose_L.
    apply (Hout v). unfold edge, graph_get. by rewrite HX.
  - intros u (_ & _ & ?)%prune_edges_spec. congruence.
Qed.

Lemma prune_excludes_filtered_witness :
  "b" ≠ EmptyString ∧
  Py.contains (Py.lower "b") (Py.lower "B") = true ∧
  ("B" ∉ prune_visited local_graph "A" "b") ∧
  ("B" ∉ dom (dfs_prune_by_filter local_graph "A" "b")) ∧
  (∀ u, ¬ edge (dfs_prune_by_filter local_graph "A" "b") u "B") ∧
  (∀ v, ¬ edge (dfs_prune_by_filter local_graph "A" "b") "B" v).
Proof.
  split; [done|]. split; [reflexivity|].
  apply (prune_excludes_filtered local_graph "A" "b" "B"); [done | reflexivity].
Defined.

(** ** Reverse graph, reachability and the reverse-dependency query *)

(** Inverting all edges of a relation inverts the paths. *)
Lemma tc_inverted (g r : Graph) :
  (∀ a b, edge r a b ↔ edge g b a) →
  ∀ x v, tc (edge r) x v ↔ tc (edge g) v x.
Proof.
  intros Hr.
  assert (∀ g1 g2 : Graph, (∀ a b, edge g1 a b → edge g2 b a) →
                           ∀ x v, tc (edge g1) x v → tc (edge g2) v x) as Hflip.
  { intros g1 g2 H x v. induction 1 as [a b Hab|a b c Hab _ IH].
    - apply tc_once. by apply H.
    - eapply tc_r; [exact IH|]. by apply H. }
  intros x v. split; apply Hflip; intros a b; apply Hr.
Qed.

Lemma elem_of_reachable_reverse (g : Graph) (x v : string) :
  v ∈ reachable (reverse_graph g) x ↔ tc (edge g) v x.
Proof.
  rewrite elem_of_reachable. apply tc_inverted. intros a b.
  apply edge_reverse_graph.
Qed.

(** X5.  [reverse_graph] inverts every edge and adds none: [v -> u] is an
    edge of the result exactly when [u -> v] is an edge of the input;
    and the keys of the result are the keys and the edge targets of the
    input. *)
Theorem reverse_graph_inverts (g : Graph) :
  (∀ u v, edge (reverse_graph g) v u ↔ edge g u v) ∧
  dom (reverse_graph g) = graph_nodes g.
Proof.
  split; [intros u v; apply edge_reverse_graph | apply dom_reverse_graph].
Qed.

(** X6.  [reachable] over the reverse graph gives the transitive
    dependents: [v] is in [reachable(reverse_graph(g), x)] exactly when
    [x] is reached from [v] along one or more edges of [g]. *)
Theorem reachable_reverse_dependents (g : Graph) (x v : string) :
  v ∈ reachable (reverse_graph g) x ↔ tc (edge g) v x.
Proof. apply elem_of_reachable_reverse. Qed.

(** X7.  The reverse-dependency query of [main]: the computed set holds
    the nodes that depend on the package, directly or not; the
    reconstructed graph has the edge [a -> b] exactly when [a] is in that
    set and [b] depends directly on [a].  The test [u in depends_on_me or
    u == package] removes nothing, and the package itself is the source
    of an edge only when it lies on a cycle. *)
Theorem reverse_query_spec (g : Graph) (package : string) :
  (∀ v, v ∈ (reverse_query g package).1 ↔ tc (edge g) v package) ∧
  (∀ a b, edge (reverse_query g package).2 a b ↔
          tc (edge g) a package ∧ edge g b a) ∧
  (∀ b, edge (reverse_query g package).2 package b →
        tc (edge g) package package).
Proof.
  assert (∀ v, v ∈ (reverse_query g package).1 ↔ tc (edge g) v package) as HD.
  { intros v. unfold reverse_query. simpl. apply elem_of_reachable_reverse. }
  assert (∀ a b, edge (reverse_query g package).2 a b ↔
                 tc (edge g) a package ∧ edge g b a) as HE.
  { intros a b. by rewrite edge_reverse_query_all, HD, edge_reverse_graph. }
  split_and!; [done..|]. intros b Hb. by apply HE in Hb as [? _].
Qed.

(** ** DOT rendering *)

(** X8.  For every graph the rendering consists of the two header lines,
    one arrow statement for each edge of the graph, and the closing
    brace; no other line is ever produced, so the text has three lines
    more than the graph has edges. *)
Theorem to_dot_lines_spec (g : Graph) :
  ∃ edges,
    Dot.to_dot_lines g =
      (Dot.header ++ (uncurry Dot.edge_stmt <$> edges) ++ ["}"])%list ∧
    NoDup edges ∧ (∀ u v, (u, v) ∈ edges ↔ edge g u v) ∧
    length (Dot.to_dot_lines g) = (3 + length edges)%nat.
Proof.
  exists (edge_list g). split_and!.
  - apply DotFacts.to_dot_lines_eq.
  - apply DotFacts.NoDup_edge_list.
  - apply DotFacts.elem_of_edge_list.
  - rewrite DotFacts.to_dot_lines_eq, !length_app, length_fmap. simpl. lia.
Qed.

(** ** Remote builder *)

Module BuildExit.
Import Registry RegistrySpec.

Section Outcome.
Variable urlopen : string → reply.
Variable flt_low : string.
Variable root : string.

Local Notation inv := (RegistrySpec.inv urlopen flt_low root).
Local Notation callable := (RegistrySpec.callable urlopen flt_low root).
Local Notation reg_path := (RegistrySpec.reg_path urlopen flt_low root).
Local Notation dep_names := (RegistrySpec.dep_names urlopen flt_low).
Local Notation unmatched_names := (RegistrySpec.unmatched_names flt_low).

(** [fail] is the only source of an exit, and its status is 2. *)
Lemma fetched_exit_code node code :
  fetched urlopen node = Raise (SystemExit code) → code = 2%Z.
Proof.
  unfold fetched, crates_latest_version, crates_direct_deps, http_get_json,
    fail, mbind, result_bind.
  intros H. repeat case_match; by simplify_eq/=.
Qed.

Lemma each_dep_fetches_pass rec node :
  (∀ v st st', rec v st = Some (Ok st') →
               fetches_pass urlopen st → fetches_pass urlopen st') →
  ∀ deps st st', each_dep flt_low rec node deps st = Some (Ok st') →
                 fetches_pass urlopen st → fetches_pass urlopen st'.
Proof.
  intros Hrec deps.
  induction deps as [|[[dep rq] kd] deps IH]; intros st st' Hrun HP; simpl in Hrun.
  - by injection Hrun as <-.
  - destruct (flt_match flt_low dep); [by eapply IH|].
    case_bool_decide; [by eapply IH|].
    destruct (rec dep _) as [[st2|e]|] eqn:Hcall; [|done..].
    eapply IH; [exact Hrun|]. by eapply Hrec.
Qed.

Lemma dfs_fetches_pass fuel v st st' :
  dfs urlopen flt_low fuel v st = Some (Ok st') →
  fetches_pass urlopen st → fetches_pass urlopen st'.
Proof.
  revert v st st'. induction fuel as [|n IH]; intros v st st' Hrun HP; [done|].
  simpl in Hrun. destruct (flt_match flt_low v); [by injection Hrun as <-|].
  case_bool_decide; [by injection Hrun as <-|].
  fold (fetched urlopen v) in Hrun.
  assert (fetches_pass urlopen (State (graph st) (visited st ∪ {[v]}))) as HP1.
  { intros w code [Hw| ->%elem_of_singleton]%elem_of_union; [by apply HP|].
    intros Hf. by rewrite Hf in Hrun. }
  destruct (fetched urlopen v) as [deps|[code|]]; [| done |].
  - eapply each_dep_fetches_pass; [|exact Hrun|exact HP1].
    intros ???. apply IH.
  - by injection Hrun as <-.
Qed.

Lemma each_dep_exit rec node :
  RegistrySpec.rec_ok urlopen flt_low root rec →
  (∀ v st code, rec v st = Some (Raise (SystemExit code)) → inv st → callable v →
                stopped urlopen flt_low root code) →
  ∀ deps st code,
    each_dep flt_low rec node deps st = Some (Raise (SystemExit code)) →
    inv st → node ∈ visited st → unmatched_names deps ⊆ dep_names node →
    stopped urlopen flt_low root code.
Proof.
  intros Hok Hraise deps.
  induction deps as [|[[dep rq] kd] deps IH]; intros st code Hrun Hinv Hn Hsub;
    simpl in Hrun; [done|].
  assert (unmatched_names deps ⊆ dep_names node) as Hsub'.
  { intros x Hx. apply Hsub. revert Hx.
    rewrite !(RegistryFacts.elem_of_unmatched_names urlopen). simpl. set_solver. }
  destruct (flt_match flt_low dep) eqn:Hd; [by eapply IH|].
  assert (dep ∈ dep_names node) as Hdep.
  { apply Hsub, (RegistryFacts.elem_of_unmatched_names urlopen). simpl. set_solver. }
  pose proof (RegistryFacts.build_inv_record _ _ _ st node dep Hinv Hn Hdep) as Hi1.
  case_bool_decide; [by eapply IH|].
  assert (callable dep) as Hc.
  { intros _. eapply reg_step; [|exact Hdep]. by apply Hinv. }
  destruct (rec dep _) as [[st2|e2]|] eqn:Hcall; [| |done].
  - destruct (Hok _ _ _ Hcall Hi1 Hc) as [[P1 P2 _ _ _] _]. simpl in *.
    eapply IH; [exact Hrun | done | by apply P2 | done].
  - injection Hrun as ->. by eapply Hraise.
Qed.

Lemma dfs_exit fuel v st code :
  dfs urlopen flt_low fuel v st = Some (Raise (SystemExit code)) →
  inv st → callable v → stopped urlopen flt_low root code.
Proof.
  revert v st code. induction fuel as [|n IH]; intros v st code Hrun Hinv Hc; [done|].
  simpl in Hrun. destruct (flt_match flt_low v) eqn:Hv; [done|].
  case_bool_decide as Hvis; [done|].
  fold (fetched urlopen v) in Hrun.
  destruct (fetched urlopen v) as [deps|[code'|]] eqn:Hf; [| |done].
  - eapply (each_dep_exit _ v (RegistryFacts.build_dfs_post _ _ _ n));
      [intros ???; apply IH | exact Hrun | | |].
    + by apply RegistryFacts.build_inv_mark.
    + simpl. set_solver.
    + unfold RegistrySpec.dep_names. by rewrite Hf.
  - injection Hrun as <-.
    pose proof (fetched_exit_code _ _ Hf) as ->.
    split; [done|]. exists v. split; [by apply Hc | done].
Qed.
End Outcome.

End BuildExit.

(** X9.  The remote builder, when it returns a graph, has visited exactly
    the nodes reached from the root through recorded dependencies, and
    has recorded for each of them exactly the fetched dependencies that
    do not match the filter (none when the fetch raised an exception that
    was swallowed). *)
Theorem build_graph_spec (urlopen : string → Registry.reply) (fuel : nat)
        (root flt : string) (g : Graph) :
  build_graph_cratesio urlopen fuel root flt = Some (Ok g) →
  (∀ u, u ∈ build_visited urlopen fuel root flt ↔
        RegistrySpec.reg_path urlopen (flt_lower flt) root u) ∧
  (∀ u v, edge g u v ↔
          RegistrySpec.reg_path urlopen (flt_lower flt) root u ∧
          v ∈ RegistrySpec.dep_names urlopen (flt_lower flt) u).
Proof.
  intros Hbuild. split.
  - intros u. by eapply build_visited_spec.
  - intros u v. by eapply build_edges_spec.
Qed.

Lemma build_graph_spec_witness :
  build_graph_cratesio sample_registry 5 "a" EmptyString
    = Some (Ok {[ "a" := {[ "b"; "c" ]}; "b" := {[ "a"; "c" ]} ]}) ∧
  (∀ u, u ∈ build_visited sample_registry 5 "a" EmptyString ↔
        RegistrySpec.reg_path sample_registry (flt_lower EmptyString) "a" u) ∧
  (∀ u v, edge {[ "a" := {[ "b"; "c" ]}; "b" := {[ "a"; "c" ]} ]} u v ↔
          RegistrySpec.reg_path sample_registry (flt_lower EmptyString) "a" u ∧
          v ∈ RegistrySpec.dep_names sample_registry (flt_lower EmptyString) u).
Proof.
  assert (build_graph_cratesio sample_registry 5 "a" EmptyString
          = Some (Ok {[ "a" := {[ "b"; "c" ]}; "b" := {[ "a"; "c" ]} ]}))
    as Hbuild by (vm_compute; reflexivity).
  split; [exact Hbuild|].
  exact (build_graph_spec sample_registry 5 "a" EmptyString _ Hbuild).
Defined.

(** X10.  The exit status of the remote builder comes from the fetches
    of the nodes reached from the root.  When a run ends with
    [SystemExit], the status is 2 and the fetch of some reached node
    ended in a failure that [http_get_json] or [crates_latest_version]
    reports through [fail]; when a run returns a graph, no fetch of a
    reached node ended in that way. *)
Theorem build_exit_status (urlopen : string → Registry.reply) (fuel : nat)
        (root flt : string) (r : result Graph) :
  build_graph_cratesio urlopen fuel root flt = Some r →
  (∀ code, r = Raise (SystemExit code) →
           code = 2%Z ∧
           ∃ u, RegistrySpec.reg_path urlopen (flt_lower flt) root u ∧
                RegistrySpec.fetched urlopen u = Raise (SystemExit 2)) ∧
  (∀ g, r = Ok g →
        ∀ u code, RegistrySpec.reg_path urlopen (flt_lower flt) root u →
                  RegistrySpec.fetched urlopen u ≠ Raise (SystemExit code)).
Proof.
  unfold build_graph_cratesio.
  destruct (Registry.run urlopen fuel root flt) as [[st|e]|] eqn:Hrun; [| |done];
    intros [= <-]; (split; [intros code [= Hcode] | intros g [= Hg]]).
  - intros u code Hu.
    apply (RegistryFacts.build_run_visited _ _ _ _ _ Hrun) in Hu.
    eapply (BuildExit.dfs_fetches_pass _ _ _ _ _ _ Hrun); [|exact Hu].
    intros w c Hw. simpl in Hw. set_solver.
  - subst e. unfold Registry.run in Hrun.
    apply BuildExit.dfs_exit with (root := root) in Hrun; [done | |].
    + apply RegistryFacts.build_inv_init.
    + intros ?. by apply RegistrySpec.reg_root.
Qed.

Lemma build_exit_status_witness :
  build_graph_cratesio partial_registry 2 "a" EmptyString
    = Some (Raise (SystemExit 2)) ∧
  (∀ code, (Raise (SystemExit 2) : result Graph) = Raise (SystemExit code) →
           code = 2%Z ∧
           ∃ u, RegistrySpec.reg_path partial_registry (flt_lower EmptyString) "a" u ∧
                RegistrySpec.fetched partial_registry u = Raise (SystemExit 2)) ∧
  (∀ g, (Raise (SystemExit 2) : result Graph) = Ok g →
        ∀ u code, RegistrySpec.reg_path partial_registry (flt_lower EmptyString) "a" u →
                  RegistrySpec.fetched partial_registry u ≠ Raise (SystemExit code)).
Proof.
  assert (build_graph_cratesio partial_registry 2 "a" EmptyString
          = Some (Raise (SystemExit 2))) as Hbuild by reflexivity.
  split; [exact Hbuild|].
  exact (build_exit_status partial_registry 2 "a" EmptyString _ Hbuild).
Defined.

(** X11.  The remote builder ends whenever the registry offers finitely
    many names: with every dependency name and the root in a set [U], a
    call stack deeper than the size of [U] is never needed, and deeper
    stacks give the same outcome. *)
Theorem build_terminates (urlopen : string → Registry.reply) (U : gset string)
        (root flt : string) (fuel : nat) :
  RegistrySpec.universe urlopen U → root ∈ U → (size U < fuel)%nat →
  ∃ r, build_graph_cratesio urlopen fuel root flt = Some r ∧
       ∀ m, (fuel ≤ m)%nat → build_graph_cratesio urlopen m root flt = Some r.
Proof.
  intros HU Hroot Hfuel.
  destruct (build_ends urlopen U root flt fuel HU Hroot Hfuel) as [r Hr].
  exists r. split; [done|]. intros m Hm. by eapply build_any_depth.
Qed.

Lemma sample_registry_universe :
  RegistrySpec.universe sample_registry {[ "a"; "b"; "c" ]}.
Proof.
  intros node deps dep.
  unfold RegistrySpec.fetched, Registry.crates_latest_version,
    Registry.crates_direct_deps, Registry.http_get_json, sample_registry,
    fail, mbind, result_bind.
  repeat (simpl;
          match goal with
          | |- context [String.eqb ?a ?b] =>
              destruct (String.eqb_spec a b); simplify_eq/=
          end);
    simpl; intros; simplify_eq/=; set_solver.
Qed.

Lemma build_terminates_witness :
  RegistrySpec.universe sample_registry {[ "a"; "b"; "c" ]} ∧
  "a" ∈ ({[ "a"; "b"; "c" ]} : gset string) ∧
  (size ({[ "a"; "b"; "c" ]} : gset string) < 4)%nat ∧
  ∃ r, build_graph_cratesio sample_registry 4 "a" "B" = Some r ∧
       ∀ m, (4 ≤ m)%nat → build_graph_cratesio sample_registry m "a" "B" = Some r.
Proof.
  assert ((size ({[ "a"; "b"; "c" ]} : gset string) < 4)%nat) as Hsz
    by (vm_compute; lia).
  assert ("a" ∈ ({[ "a"; "b"; "c" ]} : gset string)) as Ha by set_solver.
  split; [exact sample_registry_universe|]. split; [exact Ha|].
  split; [exact Hsz|].
  exact (build_terminates sample_registry _ "a" "B" 4
                          sample_registry_universe Ha Hsz).
Defined.

(** ** The registry client *)

Lemma collect_dep_wanted acc d :
  Registry.collect_dep acc d =
  if decide (wanted d) then (acc ++ [dep_tuple d])%list else acc.
Proof.
  destruct (decide (wanted d)) as [[Ho Hk]|Hw]; unfold Registry.collect_dep.
  - rewrite Ho. unfold dep_tuple. by destruct Hk as [->|[->| ->]].
  - destruct (Registry.optional d) eqn:Ho; [done|].
    destruct (Registry.kind d) as [k|] eqn:Hk; unfold Registry.or_default.
    + destruct (Py.truthy k) eqn:Ht.
      * destruct (String.eqb_spec k "normal") as [Heq|Hne]; [|done].
        destruct Hw. split; [done|]. rewrite Hk, Heq. auto.
      * destruct k; [|done]. destruct Hw. split; [done|]. rewrite Hk. auto.
    + destruct Hw. split; auto.
Qed.

Lemma collect_deps_app deps acc :
  foldl Registry.collect_dep acc deps =
  (acc ++ (dep_tuple <$> filter wanted deps))%list.
Proof.
  revert acc. induction deps as [|d deps IH]; intros acc; simpl.
  - by rewrite app_nil_r.
  - rewrite IH, collect_dep_wanted, filter_cons.
    destruct (decide (wanted d)); [|done]. simpl. by rewrite <- app_assoc.
Qed.

(** X12.  [crates_direct_deps] returns, in the order of the document, one
    tuple for each dependency that is not optional and whose kind is
    [normal], absent or empty; the kind of every returned tuple is
    [normal].  Development, build and optional dependencies are dropped. *)
Theorem crates_direct_deps_spec (urlopen : string → Registry.reply)
        (crate : string) (version : option string)
        (deps : list (string * string * string)) :
  Registry.crates_direct_deps urlopen crate version = Ok deps →
  ∃ doc,
    urlopen (Registry.CRATES_API ++ "/" ++ crate ++ "/"
               ++ Registry.format_opt version ++ "/dependencies")
      = Registry.Json doc ∧
    deps = dep_tuple <$> filter wanted (Registry.dependencies doc) ∧
    ∀ t, t ∈ deps → t.2 = "normal".
Proof.
  unfold Registry.crates_direct_deps, Registry.http_get_json.
  destruct (urlopen _) as [| | | |doc] eqn:Hurl; try done.
  simpl. intros [= <-]. exists doc. rewrite collect_deps_app. simpl.
  split_and!; [done..|].
  intros t (d & -> & _)%list_elem_of_fmap. done.
Qed.

Lemma crates_direct_deps_spec_witness :
  Registry.crates_direct_deps sample_registry "a" (Some "1.0")
    = Ok [("b", EmptyString, "normal"); ("c", EmptyString, "normal")] ∧
  ∃ doc,
    sample_registry (Registry.CRATES_API ++ "/" ++ "a" ++ "/"
               ++ Registry.format_opt (Some "1.0") ++ "/dependencies")
      = Registry.Json doc ∧
    [("b", EmptyString, "normal"); ("c", EmptyString, "normal")]
      = dep_tuple <$> filter wanted (Registry.dependencies doc) ∧
    ∀ t, t ∈ [("b", EmptyString, "normal"); ("c", EmptyString, "normal")] →
         t.2 = "normal".
Proof.
  assert (Registry.crates_direct_deps sample_registry "a" (Some "1.0")
          = Ok [("b", EmptyString, "normal"); ("c", EmptyString, "normal")])
    as Hdeps by reflexivity.
  split; [exact Hdeps|].
  exact (crates_direct_deps_spec sample_registry "a" (Some "1.0") _ Hdeps).
Defined.

(** ** The loader of local graphs *)

Module LoadFacts.

(** A graph is determined by its keys and its edges. *)
Lemma graph_eq_dom (g1 g2 : Graph) :
  dom g1 = dom g2 → (∀ u v, edge g1 u v ↔ edge g2 u v) → g1 = g2.
Proof.
  intros Hd He. apply map_eq. intros u.
  assert (graph_get g1 u = graph_get g2 u) as Hget.
  { apply set_eq. intros v. apply He. }
  unfold graph_get in Hget.
  destruct (g1 !! u) as [X1|] eqn:E1, (g2 !! u) as [X2|] eqn:E2; simpl in *.
  - by rewrite Hget.
  - apply (elem_of_dom_2 (D := gset string)) in E1. rewrite Hd in E1.
    apply elem_of_dom in E1 as [? E1]. congruence.
  - apply (elem_of_dom_2 (D := gset string)) in E2. rewrite <- Hd in E2.
    apply elem_of_dom in E2 as [? E2]. congruence.
  - done.
Qed.

(** The loop over the words after the colon. *)
Lemma load_deps_ok u deps g0 g :
  load_deps u deps g0 = Ok g →
  Forall (λ d, upper_fullmatch d = true) deps ∧
  dom g = dom g0 ∪ (if deps is [] then ∅ else {[u]}) ∧
  ∀ a b, edge g a b ↔ edge g0 a b ∨ (a = u ∧ b ∈ deps).
Proof.
  revert g0. induction deps as [|d deps IH]; intros g0; simpl.
  - intros [= <-]. split_and!; [done | set_solver |].
    intros a b. rewrite elem_of_nil. tauto.
  - destruct (upper_fullmatch d) eqn:Hd; simpl; [|done].
    intros (HF & Hdom & He)%IH. split_and!.
    + by constructor.
    + rewrite Hdom, dom_graph_add. destruct deps; set_solver.
    + intros a b. rewrite He, edge_add, elem_of_cons. naive_solver.
Qed.

Lemma load_deps_raise u deps g0 e :
  load_deps u deps g0 = Raise e →
  e = SystemExit 2 ∧ ¬ Forall (λ d, upper_fullmatch d = true) deps.
Proof.
  revert g0. induction deps as [|d deps IH]; intros g0; simpl; [done|].
  destruct (upper_fullmatch d) eqn:Hd; simpl.
  - intros [-> Hn]%IH. split; [done|]. intros HF. apply Hn.
    by apply Forall_cons in HF as [_ ?].
  - intros [= <-]. split; [done|]. intros HF.
    apply Forall_cons in HF as [? _]. congruence.
Qed.

(** One line. *)
Lemma load_line_ok g0 line g :
  load_line g0 line = Ok g →
  well_formed line ∧
  (∀ u, u ∈ dom g ↔ u ∈ dom g0 ∨ ∃ deps, declaration line = Some (u, deps)) ∧
  (∀ u v, edge g u v ↔
          edge g0 u v ∨ ∃ deps, declaration line = Some (u, deps) ∧ v ∈ deps).
Proof.
  unfold load_line, well_formed, declaration, ignored.
  destruct (negb (Py.truthy (Py.strip line)) || Py.startswith "#" (Py.strip line))
    eqn:Hign.
  - intros [= <-]. split_and!; [by left | |]; naive_solver.
  - destruct (Py.split_once ":" (Py.strip line)) as [[l r]|]; [|done].
    destruct (upper_fullmatch (Py.strip l)) eqn:Hl; simpl; [|done].
    destruct (load_deps _ _ g0) as [g1|e] eqn:Hdeps; simpl; [|done].
    intros [= <-]. apply load_deps_ok in Hdeps as (HF & Hdom & He).
    split_and!.
    + right. eauto.
    + intros u. rewrite dom_graph_setdefault, elem_of_union, Hdom.
      split.
      * intros [->%elem_of_singleton|[?|Hu]%elem_of_union]; [eauto | by left |].
        destruct (Py.split (Py.strip r)); [set_solver|].
        apply elem_of_singleton in Hu as ->. eauto.
      * intros [?|(deps & [= <- <-])]; set_solver.
    + intros u v. unfold edge at 1. rewrite graph_get_setdefault.
      fold (edge g1 u v). rewrite He. naive_solver.
Qed.

Lemma load_line_raise g0 line e :
  load_line g0 line = Raise e → e = SystemExit 2 ∧ ¬ well_formed line.
Proof.
  unfold load_line, well_formed, declaration, ignored.
  destruct (negb (Py.truthy (Py.strip line)) || Py.startswith "#" (Py.strip line))
    eqn:Hign; [done|].
  destruct (Py.split_once ":" (Py.strip line)) as [[l r]|].
  - destruct (upper_fullmatch (Py.strip l)) eqn:Hl; simpl.
    + destruct (load_deps _ _ g0) as [g1|e1] eqn:Hdeps; simpl; [done|].
      intros [= <-]. apply load_deps_raise in Hdeps as [-> Hn].
      split; [done|]. intros [?|(u & deps & [= <- <-] & _ & HF)]; done.
    + intros [= <-]. split; [done|].
      intros [?|(u & deps & [= <- <-] & ? & _)]; [done | congruence].
  - intros [= <-]. split; [done|]. intros [?|(u & deps & ? & _)]; done.
Qed.

(** All lines, starting from the graph [g0]. *)
Lemma load_lines_ok lines g0 g :
  load_lines lines g0 = Ok g →
  Forall well_formed lines ∧
  (∀ u, u ∈ dom g ↔ u ∈ dom g0 ∨ ∃ deps, declares lines u deps) ∧
  (∀ u v, edge g u v ↔
          edge g0 u v ∨ ∃ deps, declares lines u deps ∧ v ∈ deps).
Proof.
  unfold declares. revert g0. induction lines as [|line lines IH]; intros g0; simpl.
  - intros [= <-]. split_and!; [done | |]; intros; set_solver.
  - destruct (load_line g0 line) as [g1|e] eqn:Hl; simpl; [|done].
    apply load_line_ok in Hl as (Hwf & Hd1 & He1).
    intros (HF & Hd & He)%IH. split_and!.
    + by constructor.
    + intros u. rewrite Hd, Hd1. split.
      * intros [[?|(deps & ?)]|(deps & l & ? & ?)]; [by left|right..].
        -- exists deps, line. split; [by left | done].
        -- exists deps, l. split; [by right | done].
      * intros [?|(deps & l & [->|?]%elem_of_cons & ?)];
          [by left; left | left; right; eauto | right; eauto].
    + intros u v. rewrite He, He1. split.
      * intros [[?|(deps & ? & ?)]|(deps & (l & ? & ?) & ?)]; [by left|right..].
        -- exists deps. split; [|done]. exists line. split; [by left | done].
        -- exists deps. split; [|done]. exists l. split; [by right | done].
      * intros [?|(deps & (l & [->|?]%elem_of_cons & ?) & ?)];
          [by left; left | left; right; eauto | right; eauto 6].
Qed.

Lemma load_lines_raise lines g0 e :
  load_lines lines g0 = Raise e →
  e = SystemExit 2 ∧ ¬ Forall well_formed lines.
Proof.
  revert g0. induction lines as [|line lines IH]; intros g0; simpl; [done|].
  destruct (load_line g0 line) as [g1|e1] eqn:Hl; simpl.
  - intros [-> Hn]%IH. split; [done|]. intros HF. apply Hn.
    by apply Forall_cons in HF as [_ ?].
  - intros [= <-]. apply load_line_raise in Hl as [-> Hn].
    split; [done|]. intros HF. by apply Forall_cons in HF as [? _].
Qed.

End LoadFacts.

(** X14.  The graph that [load_test_graph] returns has as keys exactly
    the declared nodes, also those declared without dependencies, and as
    edges exactly the declared dependencies; declarations of one node on
    several lines are merged.  Every key and every edge target consists
    of letters [A]-[Z]. *)
Theorem load_test_graph_spec (lines : list string) (g : Graph) :
  load_test_graph lines = Ok g →
  (∀ u, u ∈ dom g ↔ ∃ deps, declares lines u deps) ∧
  (∀ u v, edge g u v ↔ ∃ deps, declares lines u deps ∧ v ∈ deps) ∧
  (∀ u, u ∈ graph_nodes g → upper_fullmatch u = true).
Proof.
  unfold load_test_graph. intros (HF & Hd & He)%LoadFacts.load_lines_ok.
  assert (∀ u deps, declares lines u deps →
                    upper_fullmatch u = true ∧
                    Forall (λ d, upper_fullmatch d = true) deps) as Hup.
  { intros u deps (line & Hin & Hdecl).
    rewrite Forall_forall in HF. destruct (HF line Hin) as [Hi|(u' & deps' & H' & ? & ?)].
    - unfold declaration in Hdecl. by rewrite Hi in Hdecl.
    - rewrite Hdecl in H'. by injection H' as <- <-. }
  split_and!.
  - intros u. rewrite Hd, dom_empty_L. set_solver.
  - intros u v. rewrite He. unfold edge at 1. rewrite graph_get_empty. set_solver.
  - intros u [Hu|Hu]%elem_of_union.
    + apply Hd in Hu as [Hu|(deps & Hdecl)]; [set_solver|].
      by apply Hup in Hdecl as [? _].
    + apply elem_of_union_list in Hu as (X & HX & Hu).
      apply list_elem_of_fmap in HX as ([w X'] & -> & HX).
      apply elem_of_map_to_list in HX. simpl in Hu.
      assert (edge g w u) as Hwu by (unfold edge, graph_get; by rewrite HX).
      apply He in Hwu as [Hwu|(deps & Hdecl & Hin)].
      * unfold edge in Hwu. rewrite graph_get_empty in Hwu. set_solver.
      * apply Hup in Hdecl as [_ HFd]. rewrite Forall_forall in HFd. by apply HFd.
Qed.

Lemma load_test_graph_spec_witness :
  load_test_graph local_description = Ok local_graph ∧
  (∀ u, u ∈ dom local_graph ↔ ∃ deps, declares local_description u deps) ∧
  (∀ u v, edge local_graph u v ↔
          ∃ deps, declares local_description u deps ∧ v ∈ deps) ∧
  (∀ u, u ∈ graph_nodes local_graph → upper_fullmatch u = true).
Proof.
  split; [exact load_local_description|].
  exact (load_test_graph_spec local_description local_graph load_local_description).
Defined.

(** X15.  The order of the lines of a local description does not matter:
    a file with the same lines in another order is accepted as well and
    gives the same graph. *)
Theorem load_test_graph_permutation (lines lines' : list string) (g : Graph) :
  lines ≡ₚ lines' →
  load_test_graph lines = Ok g →
  load_test_graph lines' = Ok g.
Proof.
  unfold load_test_graph. intros Hp Hl.
  pose proof Hl as (HF & Hd & He)%LoadFacts.load_lines_ok.
  destruct (load_lines lines' ∅) as [g'|e] eqn:Hl'.
  - pose proof Hl' as (_ & Hd' & He')%LoadFacts.load_lines_ok.
    assert (∀ u deps, declares lines u deps ↔ declares lines' u deps) as Hdecl.
    { intros u deps. unfold declares. by setoid_rewrite Hp. }
    f_equal. apply LoadFacts.graph_eq_dom.
    + apply set_eq. intros u. rewrite Hd, Hd'. by setoid_rewrite Hdecl.
    + intros u v. rewrite He, He'. by setoid_rewrite Hdecl.
  - apply LoadFacts.load_lines_raise in Hl' as [_ Hn]. destruct Hn.
    by rewrite <- Hp.
Qed.

Lemma load_test_graph_permutation_witness :
  local_description ≡ₚ ["C:"; "A: B C"; "B: C"] ∧
  load_test_graph local_description = Ok local_graph ∧
  load_test_graph ["C:"; "A: B C"; "B: C"] = Ok local_graph.
Proof.
  assert (local_description ≡ₚ ["C:"; "A: B C"; "B: C"]) as Hp.
  { symmetry. exact (Permutation_cons_append ["A: B C"; "B: C"] "C:"). }
  split; [exact Hp|]. split; [exact load_local_description|].
  exact (load_test_graph_permutation _ _ _ Hp load_local_description).
Defined.
